(** * mylib: typed console input, validators and the named-field container

    A shallow embedding of [include/mylib/validators.h], of [read_value] and
    [read_number] from [include/mylib/io.h], and of [DataContainer] with its
    populate/print helpers from [include/mylib/mylib.h]
    (data_container.h); then of the number utilities ([is_prime],
    [print_prime_numbers], [print_perfect_numbers], [print_range],
    [print_char_range] from [io.h], [analyze_number],
    [print_number_properties] and [is_perfect_number] from [types.h]),
    [read_name], [TaskDuration] from [time_utils.h] and the authentication
    loops of [auth.h].

    Console I/O is modelled explicitly: [std::cin] is an [istream] record
    (unread characters plus eofbit/failbit), [std::cout] is the string written
    so far.  The unbounded retry loop of [read_value] takes a [fuel] argument:
    [None] means the loop has not returned after [fuel] attempts. *)

From Stdlib Require Import String Ascii ZArith List Bool Lia Floats.
From Stdlib Require Znumtheory.
Import ListNotations.

Open Scope string_scope.

(** ** Characters and strings *)

Definition nl : ascii := "010"%char.
Definition endl : string := String nl EmptyString.

(** [std::isspace] in the "C" locale: space, \t, \n, \v, \f, \r. *)
Definition is_space (c : ascii) : bool :=
  let n := nat_of_ascii c in (n =? 32)%nat || ((9 <=? n)%nat && (n <=? 13)%nat).

Definition is_digit (c : ascii) : bool :=
  let n := nat_of_ascii c in (48 <=? n)%nat && (n <=? 57)%nat.

(** [operator<<] for integers: decimal text. *)
Fixpoint string_of_N_aux (fuel : nat) (n : N) (acc : string) : string :=
  match fuel with
  | O => acc
  | S f =>
      let acc' := String (ascii_of_N (48 + N.modulo n 10)) acc in
      if N.eqb (N.div n 10) 0 then acc' else string_of_N_aux f (N.div n 10) acc'
  end.

Definition string_of_N (n : N) : string := string_of_N_aux (N.size_nat n) n "".

Definition string_of_Z (z : Z) : string :=
  match z with
  | Zneg p => "-" ++ string_of_N (Npos p)
  | _ => string_of_N (Z.to_N z)
  end.

(** ** The input stream [std::cin] *)

Record istream := mk_istream { buf : string; eofbit : bool; failbit : bool }.

Definition good (s : istream) : bool := negb (eofbit s) && negb (failbit s).
Definition fail (s : istream) : bool := failbit s.
Definition clear (s : istream) : istream := mk_istream (buf s) false false.
Definition setstate_fail (s : istream) : istream := mk_istream (buf s) (eofbit s) true.

(** Extract characters up to and including the first ['\n']; the flag says
    whether the delimiter was found before the end of input. *)
Fixpoint ignore_line (b : string) : string * bool :=
  match b with
  | EmptyString => (EmptyString, false)
  | String c r => if Ascii.eqb c nl then (r, true) else ignore_line r
  end.

(** [is.ignore(numeric_limits<streamsize>::max(), '\n')]: the sentry fails on
    a stream that is not good (failbit is set, nothing is extracted);
    reaching the end of input sets eofbit. *)
Definition ignore (s : istream) : istream :=
  if good s then
    let '(r, found) := ignore_line (buf s) in mk_istream r (negb found) false
  else setstate_fail s.

(** Characters of the current line (delimiter excluded), the rest after the
    delimiter, and whether the delimiter was found. *)
Fixpoint getline_chars (b : string) : string * string * bool :=
  match b with
  | EmptyString => (EmptyString, EmptyString, false)
  | String c r =>
      if Ascii.eqb c nl then (EmptyString, r, true)
      else let '(l, r', f) := getline_chars r in (String c l, r', f)
  end.

(** [std::getline(is, str)]: on a stream that is not good [str] is left
    unchanged and failbit is set; otherwise [str] receives the line, eofbit
    is set when no delimiter was found, failbit when nothing was extracted. *)
Definition getline (s : istream) (str : string) : istream * string :=
  if good s then
    let '(l, r, found) := getline_chars (buf s) in
    let none_extracted := match buf s with EmptyString => true | _ => false end in
    (mk_istream r (negb found) none_extracted, l)
  else (setstate_fail s, str).

Fixpoint skip_ws (b : string) : string :=
  match b with
  | String c r => if is_space c then skip_ws r else b
  | EmptyString => EmptyString
  end.

(** The conversion performed by [operator>>] once leading white space has
    been skipped (the [num_get] facet for numbers): the value, or [None] when
    the conversion fails; the unread rest; whether the end of input was
    reached while converting. *)
Definition extractor (T : Type) := string -> option T * string * bool.

(** Formatted input [is >> value]. *)
Definition stream_extract {T} (ex : extractor T) (s : istream) : option T * istream :=
  if good s then
    match skip_ws (buf s) with
    | EmptyString => (None, mk_istream EmptyString true true)
    | b =>
        let '(r, rest, at_eof) := ex b in
        (r, mk_istream rest at_eof (match r with Some _ => false | None => true end))
    end
  else (None, setstate_fail s).

(** [int] is a 32-bit signed integer. *)
Definition INT_MIN : Z := -2147483648.
Definition INT_MAX : Z := 2147483647.

Fixpoint read_digits (b : string) (acc : Z) (n : nat) : Z * nat * string :=
  match b with
  | String c r =>
      if is_digit c then read_digits r (10 * acc + Z.of_nat (nat_of_ascii c - 48)) (S n)
      else (acc, n, b)
  | EmptyString => (acc, n, EmptyString)
  end.

(** [num_get] for [int] in base 10: optional sign, then digits; no digit or
    a value outside the range of [int] is a failed conversion. *)
Definition extract_int : extractor Z := fun b =>
  let '(neg, b1) :=
    match b with
    | String c r =>
        if Ascii.eqb c "-"%char then (true, r)
        else if Ascii.eqb c "+"%char then (false, r) else (false, b)
    | EmptyString => (false, b)
    end in
  let '(m, nd, rest) := read_digits b1 0 0 in
  let v := if neg then Z.opp m else m in
  let at_eof := match rest with EmptyString => true | _ => false end in
  if Nat.eqb nd 0 then (None, rest, at_eof)
  else if Z.leb INT_MIN v && Z.leb v INT_MAX then (Some v, rest, at_eof)
  else (None, rest, at_eof).

(** [is >> c] for [char]: one character. *)
Definition extract_char : extractor ascii := fun b =>
  match b with
  | String c r => (Some c, r, false)
  | EmptyString => (None, EmptyString, true)
  end.

(** ** Validators ([validators.h]) *)

Class InputValidator (T : Type) := {
  is_valid : T -> bool;
  type_name : string
}.

(** Primary template: every value is accepted. *)
#[global] Instance InputValidator_default (T : Type) : InputValidator T | 100 := {|
  is_valid _ := true;
  type_name := "value"
|}.

(** [std::is_integral<T>]. *)
Class Integral (T : Type) : Prop := {}.
#[global] Instance Integral_int : Integral Z := {}.
#[global] Instance Integral_char : Integral ascii := {}.
#[global] Instance Integral_bool : Integral bool := {}.

#[global] Instance InputValidator_integral (T : Type) `{Integral T} : InputValidator T | 10 := {|
  is_valid _ := true;
  type_name := "integer"
|}.

(** [std::is_floating_point<T>] with [std::isnan] and [std::isinf]. *)
Class FloatingPoint (T : Type) := {
  isnan : T -> bool;
  isinf : T -> bool
}.
#[global] Instance FloatingPoint_double : FloatingPoint float := {|
  isnan := PrimFloat.is_nan;
  isinf := PrimFloat.is_infinity
|}.

#[global] Instance InputValidator_floating (T : Type) `{FloatingPoint T} : InputValidator T | 10 := {|
  is_valid value := negb (isnan value) && negb (isinf value);
  type_name := "number"
|}.

#[global] Instance InputValidator_string : InputValidator string | 0 := {|
  is_valid value := match value with EmptyString => false | _ => true end;
  type_name := "text"
|}.

(** ** [read_value] and [read_number] ([io.h]) *)

(** The [if constexpr (std::is_same_v<T, std::string>)] dispatch of
    [read_value]: [std::string] reads a whole line, every other type uses
    [operator>>] with its conversion. *)
Inductive read_mode : Type -> Type :=
| ReadLine : read_mode string
| ReadToken {T : Type} : extractor T -> read_mode T.

Class Readable (T : Type) := read_mode_of : read_mode T.
#[global] Instance Readable_string : Readable string := ReadLine.
#[global] Instance Readable_int : Readable Z := ReadToken extract_int.
#[global] Instance Readable_char : Readable ascii := ReadToken extract_char.

(** The console: [std::cin] and the text written to [std::cout]. *)
Record io := mk_io { cin : istream; cout : string }.

Definition write (st : io) (text : string) : io := mk_io (cin st) (cout st ++ text).

(** Input part of one loop iteration.  [value] is the local variable of
    [read_value] ([None] while it is still uninitialised).  The result is the
    new value, or [None] when the [std::cin.fail()] branch is taken. *)
Definition read_input {T} (m : read_mode T) : option T -> istream -> option T * istream :=
  match m in read_mode T0 return option T0 -> istream -> option T0 * istream with
  | ReadLine => fun value s =>
      (* a default-constructed std::string is empty *)
      let old := match value with Some v => v | None => EmptyString end in
      let '(s', v) := getline s old in (Some v, s')
  | ReadToken ex => fun _ s =>
      let '(r, s1) := stream_extract ex s in   (* std::cin >> value; *)
      let s2 := ignore s1 in                    (* std::cin.ignore(max, '\n'); *)
      match r, fail s2 with
      | Some v, false => (Some v, s2)
      | _, _ => (None, ignore (clear s2))       (* clear(); ignore(max, '\n'); *)
      end
  end.

Inductive attempt_result (T : Type) :=
| Accepted (v : T) (st : io)
| Retry (value : option T) (st : io).
Arguments Accepted {T}.
Arguments Retry {T}.

(** One iteration of the [while (!valid)] loop. *)
Definition read_attempt {T} `{InputValidator T} (m : read_mode T) (prompt : string)
    (validator : T -> bool) (error_msg : string) (value : option T) (st : io)
    : attempt_result T :=
  let st := write st prompt in
  match read_input m value (cin st) with
  | (None, s') =>
      Retry value (write (mk_io s' (cout st))
        ("Error: Invalid " ++ type_name (T:=T) ++ " format. " ++ error_msg ++ endl))
  | (Some v, s') =>
      if is_valid v && validator v then Accepted v (mk_io s' (cout st))
      else Retry (Some v) (write (mk_io s' (cout st)) (error_msg ++ endl))
  end.

Fixpoint read_value_loop {T} `{InputValidator T} (m : read_mode T) (fuel : nat)
    (prompt : string) (validator : T -> bool) (error_msg : string)
    (value : option T) (st : io) : option (T * io) :=
  match fuel with
  | O => None
  | S f =>
      match read_attempt m prompt validator error_msg value st with
      | Accepted v st' => Some (v, st')
      | Retry value' st' => read_value_loop m f prompt validator error_msg value' st'
      end
  end.

(** [read_value<T>(prompt, validator, error_msg)]. *)
Definition read_value {T} `{InputValidator T} `{Readable T} (fuel : nat)
    (prompt : string) (validator : T -> bool) (error_msg : string) (st : io)
    : option (T * io) :=
  read_value_loop read_mode_of fuel prompt validator error_msg None st.

(** The default arguments of [read_value]. *)
Definition default_validator {T} : T -> bool := fun _ => true.
Definition default_error_msg : string := "Invalid input. Please try again.".

(** What [read_number] needs of an arithmetic type: its comparison
    operators, [std::numeric_limits<T>::lowest()] and [max()].  For the
    built-in arithmetic types [a >= b] is [b <= a]. *)
Class Arithmetic (T : Type) := {
  num_ge : T -> T -> bool;
  num_le : T -> T -> bool;
  num_ge_le : forall a b, num_ge a b = num_le b a;
  lowest : T;
  greatest : T
}.

(** [operator<<] on [std::ostream]. *)
Class Show (T : Type) := show : T -> string.

#[global] Instance Arithmetic_int : Arithmetic Z := {|
  num_ge := Z.geb;
  num_le := Z.leb;
  num_ge_le := Z.geb_leb;
  lowest := INT_MIN;
  greatest := INT_MAX
|}.
#[global] Instance Show_int : Show Z := string_of_Z.
#[global] Instance Show_string : Show string := fun s => s.
#[global] Instance Show_char : Show ascii := fun c => String c EmptyString.

(** [read_number<T>(prompt, min_value, max_value)]. *)
Definition read_number {T} `{InputValidator T} `{Readable T} `{Arithmetic T} `{Show T}
    (fuel : nat) (prompt : string) (min_value max_value : T) (st : io)
    : option (T * io) :=
  let range_validator := fun num => num_ge num min_value && num_le num max_value in
  let error_msg := "Please enter a number between " ++ show min_value ++ " and "
                   ++ show max_value ++ "." in
  read_value fuel prompt range_validator error_msg st.

(** [read_number<T>()] with its default arguments. *)
Definition read_number_defaults {T} `{InputValidator T} `{Readable T} `{Arithmetic T} `{Show T}
    (fuel : nat) (st : io) : option (T * io) :=
  read_number fuel "Enter a number: " lowest greatest st.

(** A console whose input is [text] and whose output is empty. *)
Definition console (text : string) : io := mk_io (mk_istream text false false) "".

(** ** [DataContainer<Fields...>] ([data_container.h]) *)

(** A field's static type, with what the templates instantiated at it use:
    its [InputValidator] specialisation, the [read_value] input mode, its
    [operator<<] and its value-initialised value [T{}]. *)
Record field_type := mk_field_type {
  fty : Type;
  f_validator : InputValidator fty;
  f_read : read_mode fty;
  f_show : fty -> string;
  f_default : fty
}.

Definition int_field : field_type := mk_field_type Z _ read_mode_of string_of_Z 0%Z.
Definition string_field : field_type := mk_field_type string _ read_mode_of (fun s => s) "".
Definition char_field : field_type :=
  mk_field_type ascii _ read_mode_of (fun c => String c EmptyString) "000"%char.

(** Placeholder past the last position: there [std::tuple_element] is
    ill-formed, so no instantiation of the templates ever reaches it. *)
Definition no_field : field_type :=
  mk_field_type unit _ (ReadToken (fun b => (None, b, false))) (fun _ => "") tt.

(** [std::tuple<Fields...>]. *)
Fixpoint tuple (Fs : list field_type) : Type :=
  match Fs with
  | [] => unit
  | F :: Fs' => (fty F * tuple Fs')%type
  end.

(** [std::tuple_element_t<Index, std::tuple<Fields...>>]. *)
Definition tuple_element (i : nat) (Fs : list field_type) : field_type := nth i Fs no_field.

(** The default constructor of [std::tuple] value-initialises each element. *)
Fixpoint tuple_default (Fs : list field_type) : tuple Fs :=
  match Fs as Fs0 return tuple Fs0 with
  | [] => tt
  | F :: Fs' => (f_default F, tuple_default Fs')
  end.

(** [std::get<Index>(data)], read. *)
Fixpoint tuple_get (i : nat) : forall Fs, tuple Fs -> fty (tuple_element i Fs) :=
  match i as i0 return forall Fs, tuple Fs -> fty (tuple_element i0 Fs) with
  | O => fun Fs =>
      match Fs as Fs0 return tuple Fs0 -> fty (tuple_element 0 Fs0) with
      | [] => fun _ => tt
      | F :: Fs' => fun t => fst t
      end
  | S j => fun Fs =>
      match Fs as Fs0 return tuple Fs0 -> fty (tuple_element (S j) Fs0) with
      | [] => fun _ => tt
      | F :: Fs' => fun t => tuple_get j Fs' (snd t)
      end
  end.

(** [std::get<Index>(data) = value]. *)
Fixpoint tuple_set (i : nat) : forall Fs, fty (tuple_element i Fs) -> tuple Fs -> tuple Fs :=
  match i as i0 return forall Fs, fty (tuple_element i0 Fs) -> tuple Fs -> tuple Fs with
  | O => fun Fs =>
      match Fs as Fs0 return fty (tuple_element 0 Fs0) -> tuple Fs0 -> tuple Fs0 with
      | [] => fun _ t => t
      | F :: Fs' => fun v t => (v, snd t)
      end
  | S j => fun Fs =>
      match Fs as Fs0 return fty (tuple_element (S j) Fs0) -> tuple Fs0 -> tuple Fs0 with
      | [] => fun _ t => t
      | F :: Fs' => fun v t => (fst t, tuple_set j Fs' v (snd t))
      end
  end.

Record DataContainer (Fs : list field_type) := mk_container {
  data : tuple Fs;
  field_names : list string
}.
Arguments mk_container {Fs}.
Arguments data {Fs}.
Arguments field_names {Fs}.

(** The exceptions the container throws. *)
Inductive exception :=
| invalid_argument (what : string)
| out_of_range (what : string).

Inductive result (A : Type) :=
| Ok (a : A)
| Throw (e : exception).
Arguments Ok {A}.
Arguments Throw {A}.

(** [DataContainer(names)]: [field_names(names)], [data] default-constructed,
    then the arity check. *)
Definition DataContainer_new (Fs : list field_type) (names : list string)
    : result (DataContainer Fs) :=
  if negb (Nat.eqb (length names) (length Fs))
  then Throw (invalid_argument "Number of field names must match number of fields")
  else Ok (mk_container (tuple_default Fs) names).

Definition set_field {Fs} (i : nat) (value : fty (tuple_element i Fs))
    (c : DataContainer Fs) : DataContainer Fs :=
  mk_container (tuple_set i Fs value (data c)) (field_names c).

Definition get_field {Fs} (i : nat) (c : DataContainer Fs) : fty (tuple_element i Fs) :=
  tuple_get i Fs (data c).

Definition get_field_name {Fs} (c : DataContainer Fs) (index : nat) : result string :=
  if Nat.leb (length (field_names c)) index
  then Throw (out_of_range "Field index out of range")
  else Ok (nth index (field_names c) "").

(** [sizeof...(Fields)]. *)
Definition size {Fs} (c : DataContainer Fs) : nat := length Fs.

(** How a bulk operation ended: it ran to the end, one of its reads never
    returned, or an exception escaped. *)
Inductive run_status :=
| Completed
| Interrupted
| Raised (e : exception).

(** [read_and_set_field<Index>(container)].  [container] is passed by
    reference: the result carries its state at the point the call ends.  An
    interrupted read leaves the console as it was before that read. *)
Definition read_and_set_field {Fs} (fuel : nat) (Index : nat) (container : DataContainer Fs)
    (st : io) : DataContainer Fs * io * run_status :=
  let F := tuple_element Index Fs in
  match get_field_name container Index with
  | Throw e => (container, st, Raised e)
  | Ok name =>
      let prompt := "Enter " ++ name ++ ": " in
      match @read_value (fty F) (f_validator F) (f_read F) fuel prompt
                        default_validator default_error_msg st with
      | None => (container, st, Interrupted)
      | Some (value, st') => (set_field Index value container, st', Completed)
      end
  end.

(** [std::make_index_sequence<N>]. *)
Definition make_index_sequence (n : nat) : list nat := seq 0 n.

(** The fold [(read_and_set_field<Indices>(container), ...)]. *)
Fixpoint read_data_container_helper {Fs} (fuel : nat) (Indices : list nat)
    (container : DataContainer Fs) (st : io) : DataContainer Fs * io * run_status :=
  match Indices with
  | [] => (container, st, Completed)
  | i :: rest =>
      match read_and_set_field fuel i container st with
      | (c', st', Completed) => read_data_container_helper fuel rest c' st'
      | other => other
      end
  end.

(** [read_data_container<Fields...>(field_names)]: [Ok None] when a read
    never returns. *)
Definition read_data_container (Fs : list field_type) (fuel : nat) (names : list string)
    (st : io) : result (option (DataContainer Fs * io)) :=
  match DataContainer_new Fs names with
  | Throw e => Throw e
  | Ok container =>
      match read_data_container_helper fuel (make_index_sequence (length Fs)) container st with
      | (c', st', Completed) => Ok (Some (c', st'))
      | (_, _, Interrupted) => Ok None
      | (_, _, Raised e) => Throw e
      end
  end.

(** [print_field<Index>(container)]. *)
Definition print_field {Fs} (Index : nat) (container : DataContainer Fs) (st : io)
    : result io :=
  match get_field_name container Index with
  | Throw e => Throw e
  | Ok name =>
      Ok (write st (name ++ ": " ++ f_show (tuple_element Index Fs) (get_field Index container)
                    ++ endl))
  end.

Fixpoint print_data_container_helper {Fs} (container : DataContainer Fs) (Indices : list nat)
    (st : io) : result io :=
  match Indices with
  | [] => Ok st
  | i :: rest =>
      match print_field i container st with
      | Throw e => Throw e
      | Ok st' => print_data_container_helper container rest st'
      end
  end.

Definition print_data_container {Fs} (container : DataContainer Fs) (header : string)
    (st : io) : result io :=
  let st := match header with EmptyString => st | _ => write st (header ++ endl) end in
  print_data_container_helper container (make_index_sequence (length Fs)) st.

(** Containers a program can hold: built by the constructor, then changed
    by [set_field]. *)
Inductive constructed {Fs} (names : list string) : DataContainer Fs -> Prop :=
| constructed_new c : DataContainer_new Fs names = Ok c -> constructed names c
| constructed_set c i v : constructed names c -> constructed names (set_field i v c).

(** ** Number properties ([types.h]; [to_string] in [types.cpp]) *)

Inductive NumberType := Even | Odd | Positive | Negative | Zero.


(** [analyze_number<int>]: C++ [%] truncates toward zero ([Z.rem]). *)
Definition analyze_number_int (number : Z) : list NumberType :=
  let properties := [] in
  let properties := (properties ++ [if Z.eqb (Z.rem number 2) 0 then Even else Odd])%list in
  let properties :=
    (properties ++ [if Z.ltb 0 number then Positive
                    else if Z.ltb number 0 then Negative else Zero])%list in
  properties.

(** [analyze_number<double>]: no parity test; [number > 0] and [number < 0]
    compare with [0.0]. *)
Definition analyze_number_double (number : float) : list NumberType :=
  let properties := [] in
  let properties :=
    (properties ++ [if PrimFloat.ltb 0%float number then Positive
                    else if PrimFloat.ltb number 0%float then Negative else Zero])%list in
  properties.



Section IntegerCode.
Local Open Scope Z_scope.

(** ** Primes ([is_prime] and [print_prime_numbers] in [io.h]) *)

Inductive PrimeType := Prime | NotPrime.

(** [static_cast<int>(std::sqrt(number))]: for [0 <= number <= INT_MAX] the
    conversion to [double] is exact and truncating the correctly rounded
    square root gives the integer square root. *)
Definition isqrt (number : Z) : Z := Z.sqrt number.

(** [for (T i = 3; i <= limit; i += 2) if (number % i == 0) return NotPrime;
    return Prime;], with [fuel] iterations available. *)
Fixpoint odd_divisor_loop (number limit i : Z) (fuel : nat) : PrimeType :=
  match fuel with
  | O => Prime
  | S f =>
      if Z.leb i limit then
        if Z.eqb (Z.rem number i) 0 then NotPrime
        else odd_divisor_loop number limit (i + 2) f
      else Prime
  end.

(** [is_prime<int>(number)]; the loop runs at most [limit] times. *)
Definition is_prime (number : Z) : result PrimeType :=
  if Z.leb number 0 then Throw (invalid_argument "Number must be positive")
  else if Z.eqb number 1 then Ok NotPrime
  else if Z.eqb number 2 || Z.eqb number 3 then Ok Prime
  else if Z.eqb (Z.rem number 2) 0 then Ok NotPrime
  else
    let limit := isqrt number in
    Ok (odd_divisor_loop number limit 3 (Z.to_nat limit)).

(** [for (T i = start; i <= end; ++i) if (is_prime<T>(i) == Prime) ...]. *)
Fixpoint prime_numbers_loop (i end_ : Z) (prefix suffix : string) (fuel : nat) (st : io)
    : result io :=
  match fuel with
  | O => Ok st
  | S f =>
      if Z.leb i end_ then
        match is_prime i with
        | Throw e => Throw e
        | Ok Prime =>
            prime_numbers_loop (i + 1) end_ prefix suffix f
              (write st (prefix ++ string_of_Z i ++ suffix ++ endl))
        | Ok NotPrime => prime_numbers_loop (i + 1) end_ prefix suffix f st
        end
      else Ok st
  end.

(** [print_prime_numbers<int>(start, end, header, prefix, suffix)]; the loop
    makes [end - start + 1] iterations and one final test. *)
Definition print_prime_numbers (start end_ : Z) (header prefix suffix : string) (st : io)
    : result io :=
  let start := if Z.ltb start 1 then 1 else start in
  if Z.ltb end_ start
  then Throw (invalid_argument "End value must be greater than or equal to start value")
  else
    let st := match header with EmptyString => st | _ => write st (header ++ endl) end in
    prime_numbers_loop start end_ prefix suffix (Z.to_nat (end_ - start + 2)) st.

(** ** Ranges ([print_range] and [print_char_range] in [io.h]) *)

(** [for (T i = n; i >= 1; --i)]. *)
Fixpoint range_down (i : Z) (prefix suffix : string) (fuel : nat) (st : io) : io :=
  match fuel with
  | O => st
  | S f =>
      if Z.geb i 1
      then range_down (i - 1) prefix suffix f (write st (prefix ++ string_of_Z i ++ suffix ++ endl))
      else st
  end.

(** [for (T i = 1; i <= n; ++i)]. *)
Fixpoint range_up (i n : Z) (prefix suffix : string) (fuel : nat) (st : io) : io :=
  match fuel with
  | O => st
  | S f =>
      if Z.leb i n
      then range_up (i + 1) n prefix suffix f (write st (prefix ++ string_of_Z i ++ suffix ++ endl))
      else st
  end.

(** [print_range<int>(n, header, prefix, suffix, descending)]; each loop
    makes at most [n] iterations and one final test. *)
Definition print_range (n : Z) (header prefix suffix : string) (descending : bool) (st : io)
    : io :=
  let st := match header with EmptyString => st | _ => write st (header ++ endl) end in
  if descending then range_down n prefix suffix (S (Z.to_nat n)) st
  else range_up 1 n prefix suffix (S (Z.to_nat n)) st.

(** [char] is a signed 8-bit type (as on x86-64); [++c] and [--c] convert
    the [int] result back to [char], which wraps modulo 256. *)
Definition CHAR_MIN : Z := -128.
Definition CHAR_MAX : Z := 127.
Definition to_char (z : Z) : Z := (z + 128) mod 256 - 128.

(** [std::cout << c]: the byte of [c]. *)
Definition char_byte (c : Z) : ascii := ascii_of_N (Z.to_N (c mod 256)).

Definition char_line (prefix suffix : string) (c : Z) : string :=
  prefix ++ String (char_byte c) EmptyString ++ suffix ++ endl.

(** [for (CharT c = start; c <= end; ++c)]; [None] when the loop has not
    finished after [fuel] iterations. *)
Fixpoint char_range_up (c end_ : Z) (prefix suffix : string) (fuel : nat) (st : io)
    : option io :=
  match fuel with
  | O => None
  | S f =>
      if Z.leb c end_
      then char_range_up (to_char (c + 1)) end_ prefix suffix f
             (write st (char_line prefix suffix c))
      else Some st
  end.

(** [for (CharT c = end; c >= start; --c)]. *)
Fixpoint char_range_down (c start : Z) (prefix suffix : string) (fuel : nat) (st : io)
    : option io :=
  match fuel with
  | O => None
  | S f =>
      if Z.geb c start
      then char_range_down (to_char (c - 1)) start prefix suffix f
             (write st (char_line prefix suffix c))
      else Some st
  end.

(** [print_char_range<char>(start, end, header, prefix, suffix, descending)]. *)
Definition print_char_range (start end_ : Z) (header prefix suffix : string)
    (descending : bool) (fuel : nat) (st : io) : option io :=
  let st := match header with EmptyString => st | _ => write st (header ++ endl) end in
  if descending then char_range_down end_ start prefix suffix fuel st
  else char_range_up start end_ prefix suffix fuel st.

(** ** [read_name] ([io.cpp]) *)

(** [std::isalpha] in the "C" locale. *)
Definition is_alpha (c : ascii) : bool :=
  let n := nat_of_ascii c in
  ((65 <=? n)%nat && (n <=? 90)%nat) || ((97 <=? n)%nat && (n <=? 122)%nat).

(** [std::all_of(s.begin(), s.end(), p)]. *)
Fixpoint all_of (p : ascii -> bool) (s : string) : bool :=
  match s with
  | EmptyString => true
  | String c r => p c && all_of p r
  end.

Definition name_validator (name : string) : bool :=
  match name with
  | EmptyString => false
  | _ => all_of (fun c => is_alpha c || is_space c || Ascii.eqb c "-"%char
                          || Ascii.eqb c "'"%char) name
  end.

Definition read_name (fuel : nat) (prompt : string) (st : io) : option (string * io) :=
  read_value fuel prompt name_validator
    "Name should contain only letters, spaces, hyphens, and apostrophes." st.

(** ** [TaskDuration] and [read_task_duration] ([time_utils.h]) *)

Record TaskDuration := mk_duration { days : Z; hours : Z; minutes : Z; seconds : Z }.

(** [TaskDuration()]. *)
Definition TaskDuration_default : TaskDuration := mk_duration 0 0 0 0.

Definition set_days (t : TaskDuration) (d : Z) : TaskDuration :=
  mk_duration d (hours t) (minutes t) (seconds t).
Definition set_hours (t : TaskDuration) (h : Z) : TaskDuration :=
  mk_duration (days t) h (minutes t) (seconds t).
Definition set_minutes (t : TaskDuration) (m : Z) : TaskDuration :=
  mk_duration (days t) (hours t) m (seconds t).
Definition set_seconds (t : TaskDuration) (s : Z) : TaskDuration :=
  mk_duration (days t) (hours t) (minutes t) s.

(** Signed [int] arithmetic: [None] when the exact result lies outside the
    range of [int] (signed overflow, undefined behaviour). *)
Definition int_result (z : Z) : option Z :=
  if Z.leb INT_MIN z && Z.leb z INT_MAX then Some z else None.
Definition int_mul (a b : Z) : option Z := int_result (a * b).
Definition int_add (a b : Z) : option Z := int_result (a + b).

(** [TaskDuration::to_seconds()], evaluated left to right. *)
Definition to_seconds (t : TaskDuration) : option Z :=
  (* total = days * 24 * 60 * 60; *)
  match int_mul (days t) 24 with None => None | Some d1 =>
  match int_mul d1 60 with None => None | Some d2 =>
  match int_mul d2 60 with None => None | Some total =>
  (* total += hours * 60 * 60; *)
  match int_mul (hours t) 60 with None => None | Some h1 =>
  match int_mul h1 60 with None => None | Some h2 =>
  match int_add total h2 with None => None | Some total =>
  (* total += minutes * 60; *)
  match int_mul (minutes t) 60 with None => None | Some m1 =>
  match int_add total m1 with None => None | Some total =>
  (* total += seconds; *)
  match int_add total (seconds t) with None => None | Some total =>
  Some total
  end end end end end end end end end.

(** [read_task_duration()]. *)
Definition read_task_duration (fuel : nat) (st : io) : option (TaskDuration * io) :=
  let duration := TaskDuration_default in
  match read_number (T:=Z) fuel "Please Enter Number Of Days? " 1%Z INT_MAX st with
  | None => None
  | Some (d, st) =>
  let duration := set_days duration d in
  match read_number (T:=Z) fuel "Please Enter Number Of Hours? " 1%Z INT_MAX st with
  | None => None
  | Some (h, st) =>
  let duration := set_hours duration h in
  match read_number (T:=Z) fuel "Please Enter Number Of Minutes? " 1%Z INT_MAX st with
  | None => None
  | Some (m, st) =>
  let duration := set_minutes duration m in
  match read_number (T:=Z) fuel "Please Enter Number Of Seconds? " 1%Z INT_MAX st with
  | None => None
  | Some (s, st) =>
  let duration := set_seconds duration s in
  Some (duration, st)
  end end end end.

(** ** Perfect numbers ([is_perfect_number] in [types.h],
    [print_perfect_numbers] in [io.h]) *)

Inductive PerfectNumberType := Perfect | NotPerfect.

(** [for (T i = 1; i < number; ++i) if (number % i == 0) sum += i;], with
    [fuel] iterations available; [None] when [sum += i] overflows [int]. *)
Fixpoint divisor_sum_loop (number i sum : Z) (fuel : nat) : option Z :=
  match fuel with
  | O => Some sum
  | S f =>
      if Z.ltb i number then
        if Z.eqb (Z.rem number i) 0 then
          match int_add sum i with
          | None => None
          | Some sum => divisor_sum_loop number (i + 1) sum f
          end
        else divisor_sum_loop number (i + 1) sum f
      else Some sum
  end.

(** [is_perfect_number<int>(number)]; the loop makes [number - 1] iterations
    and one final test. [None] is signed overflow of [sum]. *)
Definition is_perfect_number (number : Z) : option (result PerfectNumberType) :=
  if Z.leb number 0 then Some (Throw (invalid_argument "Number must be positive"))
  else
    match divisor_sum_loop number 1 0 (Z.to_nat number) with
    | None => None
    | Some sum => Some (Ok (if Z.eqb sum number then Perfect else NotPerfect))
    end.

(** [for (T i = start; i <= end; ++i) if (is_perfect_number<T>(i) == Perfect) ...]. *)
Fixpoint perfect_numbers_loop (i end_ : Z) (prefix suffix : string) (fuel : nat) (st : io)
    : option (result io) :=
  match fuel with
  | O => Some (Ok st)
  | S f =>
      if Z.leb i end_ then
        match is_perfect_number i with
        | None => None
        | Some (Throw e) => Some (Throw e)
        | Some (Ok Perfect) =>
            perfect_numbers_loop (i + 1) end_ prefix suffix f
              (write st (prefix ++ string_of_Z i ++ suffix ++ endl))
        | Some (Ok NotPerfect) => perfect_numbers_loop (i + 1) end_ prefix suffix f st
        end
      else Some (Ok st)
  end.

(** [print_perfect_numbers<int>(start, end, header, prefix, suffix)]. *)
Definition print_perfect_numbers (start end_ : Z) (header prefix suffix : string) (st : io)
    : option (result io) :=
  let start := if Z.ltb start 1 then 1 else start in
  if Z.ltb end_ start
  then Some (Throw (invalid_argument "End value must be greater than or equal to start value"))
  else
    let st := match header with EmptyString => st | _ => write st (header ++ endl) end in
    perfect_numbers_loop start end_ prefix suffix (Z.to_nat (end_ - start + 2)) st.

End IntegerCode.

(** ** Authentication ([auth.h]) *)

Record AuthResult := mk_auth { success : bool; message : string }.

(** The [pinValidator] and [inputValidator] lambdas. *)
Definition non_empty (input : string) : bool :=
  match input with EmptyString => false | _ => true end.

(** The [while (maxAttempts == 0 || attempts < maxAttempts)] loop of
    [authenticate_with_pin]; [fuel] bounds both the loop and each read
    ([None]: it has not returned). *)
Fixpoint authenticate_with_pin_loop (fuel : nat) (correctPin prompt : string)
    (maxAttempts : nat) (failureMsg : string) (attempts : nat) (st : io)
    : option (AuthResult * io) :=
  match fuel with
  | O => None
  | S f =>
      if Nat.eqb maxAttempts 0 || Nat.ltb attempts maxAttempts then
        match read_value (T:=string) fuel prompt non_empty
                "Invalid PIN format. Please try again." st with
        | None => None
        | Some (enteredPin, st) =>
            let attempts := S attempts in
            if String.eqb enteredPin correctPin
            then Some (mk_auth true "Authentication successful", st)
            else
              let st := if Nat.eqb maxAttempts 0 || Nat.ltb attempts maxAttempts
                        then write st (failureMsg ++ endl) else st in
              authenticate_with_pin_loop f correctPin prompt maxAttempts failureMsg attempts st
        end
      else Some (mk_auth false "Maximum authentication attempts exceeded", st)
  end.

(** [authenticate_with_pin(correctPin, prompt, maxAttempts, failureMsg)]. *)
Definition authenticate_with_pin (fuel : nat) (correctPin prompt : string)
    (maxAttempts : nat) (failureMsg : string) (st : io) : option (AuthResult * io) :=
  authenticate_with_pin_loop fuel correctPin prompt maxAttempts failureMsg 0 st.

(** The loop of [authenticate_with_credentials]; [validator] is a non-empty
    [std::function]. *)
Fixpoint authenticate_with_credentials_loop (fuel : nat)
    (validator : string -> string -> bool) (usernamePrompt passwordPrompt : string)
    (maxAttempts : nat) (failureMsg : string) (attempts : nat) (st : io)
    : option (AuthResult * io) :=
  match fuel with
  | O => None
  | S f =>
      if Nat.eqb maxAttempts 0 || Nat.ltb attempts maxAttempts then
        match read_value (T:=string) fuel usernamePrompt non_empty
                "Username cannot be empty" st with
        | None => None
        | Some (username, st) =>
        match read_value (T:=string) fuel passwordPrompt non_empty
                "Password cannot be empty" st with
        | None => None
        | Some (password, st) =>
            let attempts := S attempts in
            if validator username password
            then Some (mk_auth true "Authentication successful", st)
            else
              let st := if Nat.eqb maxAttempts 0 || Nat.ltb attempts maxAttempts
                        then write st (failureMsg ++ endl) else st in
              authenticate_with_credentials_loop f validator usernamePrompt passwordPrompt
                maxAttempts failureMsg attempts st
        end
        end
      else Some (mk_auth false "Maximum authentication attempts exceeded", st)
  end.

(** [authenticate_with_credentials(validator, usernamePrompt, passwordPrompt,
    maxAttempts, failureMsg)]. *)
Definition authenticate_with_credentials (fuel : nat) (validator : string -> string -> bool)
    (usernamePrompt passwordPrompt : string) (maxAttempts : nat) (failureMsg : string)
    (st : io) : option (AuthResult * io) :=
  authenticate_with_credentials_loop fuel validator usernamePrompt passwordPrompt
    maxAttempts failureMsg 0 st.

(** ** Texts and sets used to state the properties of the code above *)

(** The integers [a], [a+1], ..., [a+n-1]. *)
Definition zseq (a : Z) (n : nat) : list Z := map (fun k => (a + Z.of_nat k)%Z) (seq 0 n).

Definition number_lines (prefix suffix : string) (xs : list Z) : string :=
  String.concat "" (map (fun i => prefix ++ string_of_Z i ++ suffix ++ endl) xs).

Definition input_lines (ws : list string) : string :=
  String.concat "" (map (fun w => w ++ endl) ws).

Definition repeat_text (s : string) (n : nat) : string := String.concat "" (repeat s n).

Definition prime_b (p : Z) : bool := if Znumtheory.prime_dec p then true else false.

(** [d] divides [n], for [d > 0]. *)
Definition divides_b (d n : Z) : bool := Z.eqb (Z.modulo n d) 0%Z.

(** The sum of the proper divisors of [n]: the [d] with [1 <= d < n] and [d | n]. *)
Definition proper_divisor_sum (n : Z) : Z :=
  fold_right Z.add 0%Z (filter (fun d => divides_b d n) (zseq 1 (Z.to_nat (n - 1)))).

Definition perfect_b (n : Z) : bool := Z.eqb (proper_divisor_sum n) n.

(** An input line holding a wrong PIN: non-empty, without line break, and
    different from the correct PIN. *)
Definition wrong_pin (correctPin w : string) : Prop :=
  w <> "" /\ ~ In nl (list_ascii_of_string w) /\ w <> correctPin.

(** A credentials check accepting one username/password pair. *)
Definition demo_validator (username password : string) : bool :=
  String.eqb username "admin" && String.eqb password "secret".

(** ** Reference descriptions, following the wording of the specification *)

(** Populate: for each position in order, prompt with
    ["Enter " + name + ": "], read the field's type with the always-true
    predicate and write the value with [set_field]; a read that never
    returns stops the operation, the fields before it keep their values. *)
Fixpoint populate_spec {Fs} (fuel : nat) (names : list string) (positions : list nat)
    (c : DataContainer Fs) (st : io) : DataContainer Fs * io * run_status :=
  match positions with
  | [] => (c, st, Completed)
  | i :: rest =>
      let F := tuple_element i Fs in
      match @read_value (fty F) (f_validator F) (f_read F) fuel
              ("Enter " ++ nth i names "" ++ ": ") (fun _ => true) default_error_msg st with
      | None => (c, st, Interrupted)
      | Some (v, st') => populate_spec fuel names rest (set_field i v c) st'
      end
  end.

(** The text printed for a container: an optional header line, then one
    ["<name>: <value>"] line per position. *)
Definition header_line (header : string) : string :=
  match header with EmptyString => EmptyString | _ => header ++ endl end.

Definition field_line {Fs} (names : list string) (c : DataContainer Fs) (i : nat) : string :=
  nth i names "" ++ ": " ++ f_show (tuple_element i Fs) (get_field i c) ++ endl.

Definition container_text {Fs} (names : list string) (c : DataContainer Fs) (header : string)
    : string :=
  header_line header ++ String.concat "" (map (field_line names c) (seq 0 (length Fs))).

(** The three lines of input of the [read_number] scenario. *)
Definition scenario_input : string := "15" ++ endl ++ "abc" ++ endl ++ "7" ++ endl.

(** ** Proofs: [read_value] and [read_number] *)

Section ReadValue.
Context {T : Type} `{InputValidator T}.

Lemma read_attempt_accepted (m : read_mode T) prompt validator error_msg value st v st' :
  read_attempt m prompt validator error_msg value st = Accepted v st' ->
  is_valid v = true /\ validator v = true.
Proof.
  unfold read_attempt.
  destruct (read_input m value _) as [[v0|] s'].
  - destruct (is_valid v0 && validator v0) eqn:E; intro Hs; [|discriminate].
    injection Hs as <- <-. apply andb_prop. exact E.
  - discriminate.
Qed.

Lemma read_value_loop_valid (m : read_mode T) fuel prompt validator error_msg :
  forall value st v st',
  read_value_loop m fuel prompt validator error_msg value st = Some (v, st') ->
  is_valid v = true /\ validator v = true.
Proof.
  induction fuel as [|f IH]; intros value st v st' Hr; cbn [read_value_loop] in Hr.
  - discriminate.
  - destruct (read_attempt m prompt validator error_msg value st) as [v0 s0|value' s0] eqn:E.
    + injection Hr as <- <-. eapply read_attempt_accepted; eauto.
    + eapply IH; eauto.
Qed.

Lemma read_attempt_ext (m : read_mode T) prompt (p1 p2 : T -> bool) error_msg value st :
  (forall v, p1 v = p2 v) ->
  read_attempt m prompt p1 error_msg value st = read_attempt m prompt p2 error_msg value st.
Proof.
  intro Hp. unfold read_attempt.
  destruct (read_input m value _) as [[v|] s']; [rewrite Hp|]; reflexivity.
Qed.

Lemma read_value_loop_ext (m : read_mode T) prompt (p1 p2 : T -> bool) error_msg :
  (forall v, p1 v = p2 v) ->
  forall fuel value st,
  read_value_loop m fuel prompt p1 error_msg value st
  = read_value_loop m fuel prompt p2 error_msg value st.
Proof.
  intros Hp fuel. induction fuel as [|f IH]; intros value st; cbn [read_value_loop].
  - reflexivity.
  - rewrite (read_attempt_ext m prompt p1 p2 error_msg value st Hp).
    destruct (read_attempt m prompt p2 error_msg value st); [reflexivity | apply IH].
Qed.

End ReadValue.

(** Claim C1 (functional correctness): whatever inputs precede it, a value
    returned by [read_value] passes both the type's validity rule and the
    caller's predicate. *)
Theorem read_value_returns_valid {T} `{InputValidator T} `{Readable T}
    (fuel : nat) (prompt : string) (validator : T -> bool) (error_msg : string)
    (st : io) (v : T) (st' : io) :
  read_value fuel prompt validator error_msg st = Some (v, st') ->
  is_valid v = true /\ validator v = true.
Proof.
  unfold read_value. apply read_value_loop_valid.
Qed.

Lemma read_value_returns_valid_witness :
  read_value (T:=Z) 3 "Enter a positive number: " (fun v => Z.ltb 0 v) default_error_msg
    (console ("-5" ++ endl ++ "abc" ++ endl ++ "4" ++ endl))
  = Some (4%Z, mk_io (mk_istream "" false false)
      ("Enter a positive number: " ++ default_error_msg ++ endl
       ++ "Enter a positive number: Error: Invalid integer format. " ++ default_error_msg ++ endl
       ++ "Enter a positive number: "))
  /\ is_valid 4%Z = true /\ Z.ltb 0 4 = true.
Proof.
  assert (E : read_value (T:=Z) 3 "Enter a positive number: " (fun v => Z.ltb 0 v)
                default_error_msg (console ("-5" ++ endl ++ "abc" ++ endl ++ "4" ++ endl))
              = Some (4%Z, mk_io (mk_istream "" false false)
                  ("Enter a positive number: " ++ default_error_msg ++ endl
                   ++ "Enter a positive number: Error: Invalid integer format. "
                   ++ default_error_msg ++ endl ++ "Enter a positive number: ")))
    by (vm_compute; reflexivity).
  split; [exact E|].
  exact (read_value_returns_valid _ _ _ _ _ _ _ E).
Defined.

(** Claim C2 (functional correctness): the validity rules picked by the
    specialisations of [InputValidator]: integral types accept every value
    (so [read_value<int>] accepts -5), floating-point types accept exactly
    the values that are neither NaN nor infinite, [std::string] accepts
    exactly the non-empty strings, every other type accepts every value;
    the display names are "integer", "number", "text" and "value". *)
Theorem validity_rules :
  ((forall v : Z, is_valid v = true) /\ (forall c : ascii, is_valid c = true)
   /\ (forall b : bool, is_valid b = true)
   /\ type_name (T:=Z) = "integer" /\ type_name (T:=ascii) = "integer"
   /\ type_name (T:=bool) = "integer") /\
  ((forall (F : Type) (HF : FloatingPoint F) (v : F),
      @is_valid F (InputValidator_floating F) v = true <-> isnan v = false /\ isinf v = false)
   /\ (forall f : float,
         is_valid f = true <-> PrimFloat.is_nan f = false /\ PrimFloat.is_infinity f = false)
   /\ type_name (T:=float) = "number") /\
  ((forall s : string, is_valid s = true <-> s <> EmptyString) /\ type_name (T:=string) = "text") /\
  ((forall (A : Type) (v : A), @is_valid A (InputValidator_default A) v = true)
   /\ (forall A : Type, @type_name A (InputValidator_default A) = "value")
   /\ (forall u : unit, is_valid u = true) /\ type_name (T:=unit) = "value") /\
  read_value (T:=Z) 1 "Enter a number: " default_validator default_error_msg
    (console ("-5" ++ endl))
  = Some ((-5)%Z, mk_io (mk_istream "" false false) "Enter a number: ").
Proof.
  split; [repeat split; reflexivity|].
  split.
  { split; [|split; [|reflexivity]].
    - intros F HF v. cbn. destruct (isnan v), (isinf v); cbn; intuition congruence.
    - intros f.
      change (negb (PrimFloat.is_nan f) && negb (PrimFloat.is_infinity f) = true
              <-> PrimFloat.is_nan f = false /\ PrimFloat.is_infinity f = false).
      destruct (PrimFloat.is_nan f), (PrimFloat.is_infinity f); cbn; intuition congruence. }
  split; [split; [|reflexivity]|].
  { intros [|c s]; cbn; split; intro Hs; congruence. }
  split; [repeat split; reflexivity|].
  vm_compute. reflexivity.
Qed.

(** Claim C3 (refinement): [read_number] is [read_value] with the predicate
    [min <= v <= max] and an error message containing both bounds; its
    default bounds are [lowest()] and [max()] of the type (for [int]:
    -2147483648 and 2147483647); on the inputs 15, abc, 7 with bounds 1..10
    it rejects 15 with the range message, rejects abc with the
    "Invalid integer format" message and returns 7. *)
Theorem read_number_refines_read_value :
  (forall (T : Type) (HV : InputValidator T) (HR : Readable T) (HA : Arithmetic T)
          (HS : Show T) (fuel : nat) (prompt : string) (min_value max_value : T) (st : io),
     exists pre mid post,
       read_number fuel prompt min_value max_value st
       = read_value fuel prompt (fun v => num_le min_value v && num_le v max_value)
           (pre ++ show min_value ++ mid ++ show max_value ++ post) st) /\
  (forall (T : Type) (HV : InputValidator T) (HR : Readable T) (HA : Arithmetic T)
          (HS : Show T) (fuel : nat) (st : io),
     read_number_defaults fuel st = read_number fuel "Enter a number: " lowest greatest st) /\
  (lowest (T:=Z) = (-2147483648)%Z /\ greatest (T:=Z) = 2147483647%Z) /\
  read_number (T:=Z) 3 "Enter 1-10: " 1%Z 10%Z (console scenario_input)
  = Some (7%Z, mk_io (mk_istream "" false false)
      ("Enter 1-10: " ++ "Please enter a number between 1 and 10." ++ endl
       ++ "Enter 1-10: " ++ "Error: Invalid integer format. "
       ++ "Please enter a number between 1 and 10." ++ endl
       ++ "Enter 1-10: ")).
Proof.
  split; [|split; [|split; [split; reflexivity|]]].
  - intros T HV HR HA HS fuel prompt min_value max_value st.
    exists "Please enter a number between ", " and ", ".".
    unfold read_number, read_value.
    apply read_value_loop_ext.
    intro v. rewrite num_ge_le. reflexivity.
  - reflexivity.
  - vm_compute. reflexivity.
Qed.

(** ** Proofs: input consumed by one attempt *)

Lemma ignore_line_drops_line (b : string) :
  let '(r, found) := ignore_line b in
  found = true -> exists pre, b = pre ++ endl ++ r /\ ~ In nl (list_ascii_of_string pre).
Proof.
  induction b as [|c b IH]; cbn; [discriminate|].
  destruct (Ascii.eqb c nl) eqn:E.
  - intros _. apply Ascii.eqb_eq in E. subst c. exists EmptyString. split; [reflexivity|].
    cbn. tauto.
  - destruct (ignore_line b) as [r found]. intros Hf.
    destruct (IH Hf) as [pre [Hb Hn]]. exists (String c pre). split.
    + rewrite Hb. reflexivity.
    + cbn. intros [Hc|Hin]; [subst c; rewrite Ascii.eqb_refl in E; discriminate | exact (Hn Hin)].
Qed.

Lemma getline_chars_one_line (b : string) :
  let '(l, r, found) := getline_chars b in
  b = l ++ (if found then endl else EmptyString) ++ r /\ ~ In nl (list_ascii_of_string l).
Proof.
  induction b as [|c b IH]; cbn; [split; [reflexivity | tauto]|].
  destruct (Ascii.eqb c nl) eqn:E.
  - apply Ascii.eqb_eq in E. subst c. split; [reflexivity | cbn; tauto].
  - destruct (getline_chars b) as [[l r] found]. destruct IH as [Hb Hn]. split.
    + rewrite Hb at 1. reflexivity.
    + cbn. intros [Hc|Hin]; [subst c; rewrite Ascii.eqb_refl in E; discriminate | exact (Hn Hin)].
Qed.

Section Attempt.
Context {T : Type} `{InputValidator T}.

Lemma read_attempt_token (ex : extractor T) prompt validator error_msg value s out r rest :
  good s = true ->
  skip_ws (buf s) <> EmptyString ->
  ex (skip_ws (buf s)) = (r, rest, false) ->
  exists s',
    buf s' = fst (ignore_line rest) /\ fail s' = false /\
    read_attempt (ReadToken ex) prompt validator error_msg value (mk_io s out)
    = match r with
      | Some v =>
          if is_valid v && validator v then Accepted v (mk_io s' (out ++ prompt))
          else Retry (Some v) (write (mk_io s' (out ++ prompt)) (error_msg ++ endl))
      | None =>
          Retry value (write (mk_io s' (out ++ prompt))
            ("Error: Invalid " ++ type_name (T:=T) ++ " format. " ++ error_msg ++ endl))
      end.
Proof.
  intros Hgood Hne Hex.
  destruct (ignore_line rest) as [r' found] eqn:Eig.
  exists (mk_istream r' (negb found) false).
  split; [reflexivity | split; [reflexivity|]].
  unfold read_attempt, write. cbn [cin cout read_input].
  unfold stream_extract. rewrite Hgood.
  destruct (skip_ws (buf s)) as [|c b'] eqn:Esk; [contradiction|].
  rewrite Hex.
  destruct r as [v|]; unfold ignore; cbn; rewrite Eig; reflexivity.
Qed.

Lemma read_attempt_line prompt validator error_msg value s out l rest found :
  good s = true ->
  buf s <> EmptyString ->
  getline_chars (buf s) = (l, rest, found) ->
  exists s',
    buf s' = rest /\ fail s' = false /\
    read_attempt ReadLine prompt validator error_msg value (mk_io s out)
    = if is_valid l && validator l then Accepted l (mk_io s' (out ++ prompt))
      else Retry (Some l) (write (mk_io s' (out ++ prompt)) (error_msg ++ endl)).
Proof.
  intros Hgood Hne Hgl.
  exists (mk_istream rest (negb found) false).
  split; [reflexivity | split; [reflexivity|]].
  unfold read_attempt, write. cbn [cin cout read_input].
  unfold getline. rewrite Hgood, Hgl.
  destruct (buf s); [contradiction|]. reflexivity.
Qed.

End Attempt.

(** Claim C8, counterexample: the first attempt on the line "15 7" reads
    the token 15 and also discards " 7"; the next attempt reads the
    following line, so [read_number] with bounds 1..10 returns 8, never 7. *)
Lemma read_value_consumes_rest_of_line :
  (exists st,
     read_attempt (T:=Z) read_mode_of "Enter 1-10: "
       (fun num => num_ge num 1%Z && num_le num 10%Z)
       "Please enter a number between 1 and 10." None
       (console ("15 7" ++ endl ++ "8" ++ endl)) = Retry (Some 15%Z) st
     /\ buf (cin st) = "8" ++ endl /\ buf (cin st) <> " 7" ++ endl ++ "8" ++ endl) /\
  option_map fst (read_number (T:=Z) 5 "Enter 1-10: " 1%Z 10%Z
                    (console ("15 7" ++ endl ++ "8" ++ endl))) = Some 8%Z.
Proof.
  split.
  - eexists. split; [vm_compute; reflexivity|]. split; cbn; [reflexivity | discriminate].
  - vm_compute. reflexivity.
Qed.

(** Claim C8, as amended: on each attempt, for a type read with
    [operator>>] (numbers, [char]) [read_value] extracts one
    whitespace-delimited token and then discards the rest of that input
    line, whether or not the token parsed (stated for a token followed by
    more input); when the token does not parse it prints
    "Error: Invalid <type_name> format. <error_msg>" and the loop goes on
    with the next attempt.  For [std::string] an attempt consumes exactly
    one line. *)
Theorem read_value_attempt_input :
  (forall (T : Type) (HV : InputValidator T) (ex : extractor T) (prompt : string)
          (validator : T -> bool) (error_msg : string) (value : option T) (s : istream)
          (out : string) (r : option T) (rest : string),
     good s = true ->
     skip_ws (buf s) <> EmptyString ->
     ex (skip_ws (buf s)) = (r, rest, false) ->
     exists s',
       buf s' = fst (ignore_line rest) /\ fail s' = false /\
       read_attempt (ReadToken ex) prompt validator error_msg value (mk_io s out)
       = match r with
         | Some v =>
             if is_valid v && validator v then Accepted v (mk_io s' (out ++ prompt))
             else Retry (Some v) (write (mk_io s' (out ++ prompt)) (error_msg ++ endl))
         | None =>
             Retry value (write (mk_io s' (out ++ prompt))
               ("Error: Invalid " ++ type_name (T:=T) ++ " format. " ++ error_msg ++ endl))
         end) /\
  (forall b : string,
     let '(r, found) := ignore_line b in
     found = true -> exists pre, b = pre ++ endl ++ r /\ ~ In nl (list_ascii_of_string pre)) /\
  (forall (prompt : string) (validator : string -> bool) (error_msg : string)
          (value : option string) (s : istream) (out l rest : string) (found : bool),
     good s = true ->
     buf s <> EmptyString ->
     getline_chars (buf s) = (l, rest, found) ->
     exists s',
       buf s' = rest /\ fail s' = false /\
       read_attempt ReadLine prompt validator error_msg value (mk_io s out)
       = if is_valid l && validator l then Accepted l (mk_io s' (out ++ prompt))
         else Retry (Some l) (write (mk_io s' (out ++ prompt)) (error_msg ++ endl))) /\
  (forall b : string,
     let '(l, r, found) := getline_chars b in
     b = l ++ (if found then endl else EmptyString) ++ r /\ ~ In nl (list_ascii_of_string l)) /\
  (forall (T : Type) (HV : InputValidator T) (m : read_mode T) (fuel : nat) (prompt : string)
          (validator : T -> bool) (error_msg : string) (value value' : option T) (st st' : io),
     read_attempt m prompt validator error_msg value st = Retry value' st' ->
     read_value_loop m (S fuel) prompt validator error_msg value st
     = read_value_loop m fuel prompt validator error_msg value' st').
Proof.
  split; [intros; eapply read_attempt_token; eauto|].
  split; [exact ignore_line_drops_line|].
  split; [intros; eapply read_attempt_line; eauto|].
  split; [exact getline_chars_one_line|].
  intros T HV m fuel prompt validator error_msg value value' st st' Ha.
  cbn [read_value_loop]. rewrite Ha. reflexivity.
Qed.

Lemma read_value_attempt_input_witness :
  exists s',
    buf s' = fst (ignore_line ("abc" ++ endl ++ "7" ++ endl)) /\ fail s' = false /\
    read_attempt (T:=Z) (ReadToken extract_int) "Enter 1-10: " default_validator
      default_error_msg None (mk_io (mk_istream ("abc" ++ endl ++ "7" ++ endl) false false) "")
    = Retry None (write (mk_io s' ("" ++ "Enter 1-10: "))
        ("Error: Invalid " ++ type_name (T:=Z) ++ " format. " ++ default_error_msg ++ endl)).
Proof.
  destruct read_value_attempt_input as [Htok _].
  apply (Htok Z _ extract_int "Enter 1-10: " default_validator default_error_msg None
           (mk_istream ("abc" ++ endl ++ "7" ++ endl) false false) "" None
           ("abc" ++ endl ++ "7" ++ endl)).
  - reflexivity.
  - simpl. discriminate.
  - vm_compute. reflexivity.
Defined.

(** ** Proofs: the container *)

Lemma string_app_assoc (a b c : string) : (a ++ b) ++ c = a ++ b ++ c.
Proof. induction a as [|x a IH]; cbn; [reflexivity | rewrite IH; reflexivity]. Qed.

Lemma string_app_nil_r (a : string) : a ++ "" = a.
Proof. induction a as [|x a IH]; cbn; [reflexivity | rewrite IH; reflexivity]. Qed.

Lemma concat_empty_sep_cons (x : string) (xs : list string) :
  String.concat "" (x :: xs) = x ++ String.concat "" xs.
Proof. destruct xs; cbn; [rewrite string_app_nil_r|]; reflexivity. Qed.

Lemma tuple_get_default (i : nat) : forall Fs,
  tuple_get i Fs (tuple_default Fs) = f_default (tuple_element i Fs).
Proof.
  induction i as [|j IH]; intros [|F Fs]; cbn; try reflexivity. apply IH.
Qed.

Lemma tuple_get_set (i : nat) : forall Fs (v : fty (tuple_element i Fs)) (t : tuple Fs),
  tuple_get i Fs (tuple_set i Fs v t) = v.
Proof.
  induction i as [|j IH]; intros [|F Fs] v t; cbn; try reflexivity.
  - destruct v. reflexivity.
  - destruct v. reflexivity.
  - apply IH.
Qed.

Lemma constructed_names {Fs} (names : list string) (c : DataContainer Fs) :
  constructed names c -> field_names c = names /\ length names = length Fs.
Proof.
  induction 1 as [c Hnew | c i v _ IH].
  - unfold DataContainer_new in Hnew.
    destruct (Nat.eqb (length names) (length Fs)) eqn:E; cbn in Hnew; [|discriminate].
    injection Hnew as <-. split; [reflexivity|]. apply Nat.eqb_eq. exact E.
  - exact IH.
Qed.

Lemma get_field_name_constructed {Fs} (names : list string) (c : DataContainer Fs) (i : nat) :
  constructed names c -> i < length Fs -> get_field_name c i = Ok (nth i names "").
Proof.
  intros Hc Hi. destruct (constructed_names names c Hc) as [Hn Hl].
  unfold get_field_name. rewrite Hn.
  destruct (Nat.leb (length names) i) eqn:E; [apply Nat.leb_le in E; lia | reflexivity].
Qed.

(** Claim C5 (error handling): the constructor throws
    [std::invalid_argument] exactly when the number of names differs from
    the number of fields, whatever the arity; with a matching number it
    returns a container holding those names. *)
Theorem DataContainer_new_arity (Fs : list field_type) (names : list string) :
  match DataContainer_new Fs names with
  | Throw e =>
      e = invalid_argument "Number of field names must match number of fields"
      /\ length names <> length Fs
  | Ok c => length names = length Fs /\ field_names c = names /\ data c = tuple_default Fs
  end.
Proof.
  unfold DataContainer_new.
  destruct (Nat.eqb (length names) (length Fs)) eqn:E; cbn.
  - apply Nat.eqb_eq in E. repeat split; assumption.
  - apply Nat.eqb_neq in E. split; [reflexivity | exact E].
Qed.

(** Claim C6 (error handling): on a container built by the constructor and
    then changed by any [set_field] calls, [get_field_name i] throws
    [std::out_of_range] when [i >= size()] and otherwise returns the name
    given at construction for position [i]. *)
Theorem get_field_name_spec {Fs} (names : list string) (c : DataContainer Fs) :
  constructed names c ->
  (forall i, size c <= i -> get_field_name c i = Throw (out_of_range "Field index out of range")) /\
  (forall i, i < size c -> get_field_name c i = Ok (nth i names "")).
Proof.
  intros Hc. destruct (constructed_names names c Hc) as [Hn Hl]. unfold size. split.
  - intros i Hi. unfold get_field_name. rewrite Hn.
    destruct (Nat.leb (length names) i) eqn:E; [reflexivity|].
    apply Nat.leb_nle in E. lia.
  - intros i Hi. apply get_field_name_constructed; assumption.
Qed.

Lemma get_field_name_spec_witness :
  (forall i, size (Fs:=[int_field; string_field])
               (set_field (Fs:=[int_field; string_field]) 0 (-5)%Z
                  (mk_container (tuple_default [int_field; string_field]) ["Age"; "Name"])) <= i ->
     get_field_name (set_field (Fs:=[int_field; string_field]) 0 (-5)%Z
                  (mk_container (tuple_default [int_field; string_field]) ["Age"; "Name"])) i
     = Throw (out_of_range "Field index out of range")) /\
  (forall i, i < size (Fs:=[int_field; string_field])
               (set_field (Fs:=[int_field; string_field]) 0 (-5)%Z
                  (mk_container (tuple_default [int_field; string_field]) ["Age"; "Name"])) ->
     get_field_name (set_field (Fs:=[int_field; string_field]) 0 (-5)%Z
                  (mk_container (tuple_default [int_field; string_field]) ["Age"; "Name"])) i
     = Ok (nth i ["Age"; "Name"] "")).
Proof.
  apply get_field_name_spec.
  apply constructed_set. apply constructed_new. reflexivity.
Defined.

(** Claim C7 (functional correctness): [get_field] is total; right after
    construction position [i] holds the value-initialised value of its type,
    and after [set_field<i>(v)] it holds exactly [v], for every value. *)
Theorem get_field_set_field {Fs} (names : list string) :
  (forall c : DataContainer Fs, DataContainer_new Fs names = Ok c ->
     forall i, get_field i c = f_default (tuple_element i Fs)) /\
  (forall (c : DataContainer Fs) (i : nat) (v : fty (tuple_element i Fs)),
     get_field i (set_field i v c) = v).
Proof.
  split.
  - intros c Hnew i. unfold DataContainer_new in Hnew.
    destruct (Nat.eqb (length names) (length Fs)); cbn in Hnew; [|discriminate].
    injection Hnew as <-. apply tuple_get_default.
  - intros c i v. apply tuple_get_set.
Qed.

Lemma get_field_set_field_witness :
  get_field 1 (mk_container (tuple_default [int_field; string_field]) ["Age"; "Name"])
  = f_default (tuple_element 1 [int_field; string_field]).
Proof.
  destruct (get_field_set_field (Fs:=[int_field; string_field]) ["Age"; "Name"]) as [Hdef _].
  apply Hdef. reflexivity.
Defined.

Lemma in_seq_lt (i n : nat) : In i (seq 0 n) -> i < n.
Proof. intros Hin. apply in_seq in Hin. lia. Qed.

Lemma helper_populate_spec {Fs} (names : list string) (fuel : nat) :
  forall (indices : list nat) (c : DataContainer Fs) (st : io),
  constructed names c -> (forall i, In i indices -> i < length Fs) ->
  read_data_container_helper fuel indices c st = populate_spec fuel names indices c st.
Proof.
  induction indices as [|i rest IH]; intros c st Hc Hin;
    cbn [read_data_container_helper populate_spec]; [reflexivity|].
  unfold read_and_set_field, default_validator.
  rewrite (get_field_name_constructed names c i Hc (Hin i (or_introl eq_refl))).
  destruct (read_value _ _ _ _ _) as [[v st']|]; [|reflexivity].
  apply IH.
  - apply constructed_set. exact Hc.
  - intros j Hj. apply Hin. right. exact Hj.
Qed.

Lemma populate_spec_status {Fs} (names : list string) (fuel : nat) (e : exception) :
  forall (positions : list nat) (c : DataContainer Fs) (st : io),
  snd (populate_spec fuel names positions c st) <> Raised e.
Proof.
  induction positions as [|i rest IH]; intros c st; cbn [populate_spec].
  - cbn. discriminate.
  - destruct (read_value _ _ _ _ _) as [[v st']|]; [apply IH | cbn; discriminate].
Qed.

Lemma print_helper_output {Fs} (names : list string) (c : DataContainer Fs) :
  constructed names c ->
  forall (indices : list nat) (st : io),
  (forall i, In i indices -> i < length Fs) ->
  print_data_container_helper c indices st
  = Ok (mk_io (cin st) (cout st ++ String.concat "" (map (field_line names c) indices))).
Proof.
  intros Hc. induction indices as [|i rest IH]; intros st Hin;
    cbn [print_data_container_helper map].
  - destruct st as [s out]. cbn. rewrite string_app_nil_r. reflexivity.
  - unfold print_field.
    rewrite (get_field_name_constructed names c i Hc (Hin i (or_introl eq_refl))).
    rewrite IH by (intros j Hj; apply Hin; right; exact Hj).
    cbn [write cin cout]. rewrite concat_empty_sep_cons, string_app_assoc. reflexivity.
Qed.

Lemma print_data_container_text {Fs} (names : list string) (c : DataContainer Fs)
    (header : string) (st : io) :
  constructed names c ->
  print_data_container c header st = Ok (mk_io (cin st) (cout st ++ container_text names c header)).
Proof.
  intros Hc. unfold print_data_container, container_text, make_index_sequence.
  destruct header as [|ch hs].
  - rewrite (print_helper_output names c Hc _ st (fun i => in_seq_lt i (length Fs))).
    reflexivity.
  - rewrite (print_helper_output names c Hc _ _ (fun i => in_seq_lt i (length Fs))).
    cbn [write cin cout header_line]. rewrite string_app_assoc. reflexivity.
Qed.

(** Claim C4 (functional correctness): populating a container visits the
    positions 0 .. arity-1 in order; position [i] is prompted with
    ["Enter " + name + ": "], read with [read_value] at the field's type and
    the always-true predicate, and stored with [set_field]; when a read never
    returns, the fields before it keep the values read.  With the inputs
    "-5" and nothing more, an (int, string) container gets Age = -5 and the
    text read never returns. *)
Theorem populate_in_declared_order :
  (forall (Fs : list field_type) (names : list string) (c : DataContainer Fs) (fuel : nat) (st : io),
     constructed names c ->
     read_data_container_helper fuel (make_index_sequence (length Fs)) c st
     = populate_spec fuel names (seq 0 (length Fs)) c st) /\
  (forall (Fs : list field_type) (names : list string) (fuel : nat) (st : io),
     length names = length Fs ->
     read_data_container Fs fuel names st
     = match populate_spec fuel names (seq 0 (length Fs))
               (mk_container (tuple_default Fs) names) st with
       | (c', st', Completed) => Ok (Some (c', st'))
       | (_, _, Interrupted) => Ok None
       | (_, _, Raised e) => Throw e
       end) /\
  match DataContainer_new [int_field; string_field] ["Age"; "Name"] with
  | Ok c0 =>
      let '(c', st', status) :=
        read_data_container_helper 10 (make_index_sequence 2) c0 (console ("-5" ++ endl)) in
      status = Interrupted /\ get_field 0 c' = (-5)%Z /\ cout st' = "Enter Age: "
  | Throw _ => False
  end.
Proof.
  split; [|split].
  - intros Fs names c fuel st Hc. unfold make_index_sequence.
    apply helper_populate_spec; [exact Hc | intros i; apply in_seq_lt].
  - intros Fs names fuel st Hl. unfold read_data_container, DataContainer_new.
    rewrite <- Hl, Nat.eqb_refl. cbn [negb].
    rewrite Hl, helper_populate_spec with (names := names).
    + reflexivity.
    + apply constructed_new. unfold DataContainer_new. rewrite <- Hl, Nat.eqb_refl. reflexivity.
    + intros i. apply in_seq_lt.
  - vm_compute. split; [reflexivity | split; reflexivity].
Qed.

Lemma populate_in_declared_order_witness :
  read_data_container_helper 3 (make_index_sequence 1)
    (mk_container (Fs:=[int_field]) (tuple_default [int_field]) ["Age"]) (console ("-5" ++ endl))
  = populate_spec 3 ["Age"] (seq 0 1)
      (mk_container (Fs:=[int_field]) (tuple_default [int_field]) ["Age"]) (console ("-5" ++ endl)).
Proof.
  destruct populate_in_declared_order as [Hpop _].
  apply (Hpop [int_field] ["Age"]). apply constructed_new. reflexivity.
Defined.

(** Claim C9 (functional correctness): printing a container writes the
    header followed by a line break when the header is non-empty (nothing
    for an empty header), then one ["<name>: <value>"] line per position in
    declared order; for fields X = 1 and Y = 2 and header "Report" the output
    is exactly the lines "Report", "X: 1", "Y: 2". *)
Theorem print_data_container_output :
  (forall (Fs : list field_type) (names : list string) (c : DataContainer Fs)
          (header : string) (st : io),
     constructed names c ->
     print_data_container c header st
     = Ok (mk_io (cin st) (cout st ++ header_line header
                           ++ String.concat "" (map (field_line names c) (seq 0 (length Fs)))))) /\
  (forall s : string, header_line s = EmptyString <-> s = EmptyString) /\
  match DataContainer_new [int_field; int_field] ["X"; "Y"] with
  | Ok c0 =>
      print_data_container (set_field (Fs:=[int_field; int_field]) 1 2%Z
                              (set_field (Fs:=[int_field; int_field]) 0 1%Z c0)) "Report" (console "")
      = Ok (mk_io (mk_istream "" false false) ("Report" ++ endl ++ "X: 1" ++ endl ++ "Y: 2" ++ endl))
  | Throw _ => False
  end.
Proof.
  split; [|split].
  - intros Fs names c header st Hc. rewrite (print_data_container_text names c header st Hc).
    reflexivity.
  - intros [|ch s]; cbn; split; intro E; congruence.
  - vm_compute. reflexivity.
Qed.

Lemma print_data_container_output_witness :
  print_data_container (mk_container (Fs:=[string_field]) (tuple_default [string_field]) ["Name"])
    "" (console "")
  = Ok (mk_io (cin (console "")) (cout (console "") ++ header_line ""
          ++ String.concat "" (map (field_line ["Name"]
               (mk_container (Fs:=[string_field]) (tuple_default [string_field]) ["Name"]))
               (seq 0 (length [string_field]))))).
Proof.
  destruct print_data_container_output as [Hprint _].
  apply Hprint. apply constructed_new. reflexivity.
Defined.

(** Claim C10 (safety): on any container built by the constructor (and
    changed by [set_field]), populate and print never throw
    [std::out_of_range]; [read_data_container] throws nothing but the
    constructor's [std::invalid_argument]. *)
Theorem bulk_ops_never_out_of_range {Fs} (names : list string) (c : DataContainer Fs)
    (fuel : nat) (st : io) (header : string) :
  constructed names c ->
  (forall e, snd (read_data_container_helper fuel (make_index_sequence (length Fs)) c st)
             <> Raised e) /\
  (forall e, print_data_container c header st <> Throw e) /\
  (forall e, read_data_container Fs fuel names st = Throw e ->
             e = invalid_argument "Number of field names must match number of fields").
Proof.
  intros Hc. split; [|split].
  - intros e. unfold make_index_sequence.
    rewrite (helper_populate_spec names fuel _ c st Hc (fun i => in_seq_lt i (length Fs))).
    apply populate_spec_status.
  - intros e. rewrite (print_data_container_text names c header st Hc). discriminate.
  - intros e. unfold read_data_container.
    destruct (DataContainer_new Fs names) as [c0|e0] eqn:Enew.
    + unfold make_index_sequence.
      rewrite (helper_populate_spec names fuel _ c0 st (constructed_new names c0 Enew)
                 (fun i => in_seq_lt i (length Fs))).
      pose proof (populate_spec_status names fuel e (seq 0 (length Fs)) c0 st) as Hs.
      destruct (populate_spec fuel names (seq 0 (length Fs)) c0 st) as [[c' st'] [| |e']];
        try discriminate.
      intros Heq. injection Heq as <-. cbn in Hs. contradiction.
    + unfold DataContainer_new in Enew.
      destruct (negb (Nat.eqb (length names) (length Fs))); [|discriminate].
      injection Enew as <-. intros Heq. injection Heq as <-. reflexivity.
Qed.

Lemma bulk_ops_never_out_of_range_witness :
  (forall e, snd (read_data_container_helper 2 (make_index_sequence 1)
                    (mk_container (Fs:=[int_field]) (tuple_default [int_field]) ["Age"])
                    (console "")) <> Raised e) /\
  (forall e, print_data_container (mk_container (Fs:=[int_field]) (tuple_default [int_field]) ["Age"])
               "Report" (console "") <> Throw e) /\
  (forall e, read_data_container [int_field] 2 ["Age"] (console "") = Throw e ->
             e = invalid_argument "Number of field names must match number of fields").
Proof.
  apply (bulk_ops_never_out_of_range (Fs:=[int_field]) ["Age"]
           (mk_container (tuple_default [int_field]) ["Age"]) 2 (console "") "Report").
  apply constructed_new. reflexivity.
Defined.

(** ** Proofs: shared facts about output and integer ranges *)

Lemma write_write (st : io) (a b : string) : write (write st a) b = write st (a ++ b).
Proof. unfold write. cbn. rewrite string_app_assoc. reflexivity. Qed.

Lemma write_empty (st : io) : write st "" = st.
Proof. destruct st as [s o]. unfold write. cbn. rewrite string_app_nil_r. reflexivity. Qed.

Lemma zseq_cons (a : Z) (n : nat) : zseq a (S n) = a :: zseq (a + 1)%Z n.
Proof.
  unfold zseq. cbn [seq map]. f_equal; [lia|].
  rewrite <- seq_shift, map_map. apply map_ext. intro k. lia.
Qed.

Lemma zseq_snoc (a : Z) (n : nat) : zseq a (S n) = (zseq a n ++ [(a + Z.of_nat n)%Z])%list.
Proof. unfold zseq. rewrite seq_S, map_app. reflexivity. Qed.

Lemma concat_empty_app (xs ys : list string) :
  String.concat "" (xs ++ ys) = String.concat "" xs ++ String.concat "" ys.
Proof.
  induction xs as [|x xs IH]; [reflexivity|].
  cbn [app]. rewrite !concat_empty_sep_cons, IH, string_app_assoc. reflexivity.
Qed.

Lemma number_lines_cons (prefix suffix : string) (i : Z) (xs : list Z) :
  number_lines prefix suffix (i :: xs)
  = (prefix ++ string_of_Z i ++ suffix ++ endl) ++ number_lines prefix suffix xs.
Proof. unfold number_lines. cbn [map]. apply concat_empty_sep_cons. Qed.

(** ** Proofs: primes *)

Section Primes.
Local Open Scope Z_scope.

Lemma rem_zero_iff_divide (n d : Z) : d <> 0 -> (Z.rem n d = 0 <-> (d | n)).
Proof. apply Z.rem_divide. Qed.

(** The trial-division loop rejects exactly the numbers with an odd divisor
    [i + 2k] below the limit. *)
Lemma odd_divisor_loop_spec (n limit : Z) : forall fuel i,
  limit - i < 2 * Z.of_nat fuel -> 0 < i ->
  (odd_divisor_loop n limit i fuel = Prime <->
   forall k, 0 <= k -> i + 2 * k <= limit -> ~ (i + 2 * k | n)).
Proof.
  induction fuel as [|f IH]; intros i Hf Hi; cbn [odd_divisor_loop].
  - split; [intros _ k Hk Hle; lia | reflexivity].
  - destruct (Z.leb_spec i limit) as [Hle|Hgt].
    + destruct (Z.eqb_spec (Z.rem n i) 0) as [Hr|Hr].
      * split; [discriminate|]. intros Hall. exfalso.
        apply (Hall 0); [lia | lia|]. rewrite Z.mul_0_r, Z.add_0_r.
        apply rem_zero_iff_divide; [lia | exact Hr].
      * rewrite (IH (i + 2)); [|lia|lia]. split.
        -- intros Hall k Hk Hle'. destruct (Z.eq_dec k 0) as [->|Hk0].
           ++ rewrite Z.mul_0_r, Z.add_0_r. intro Hd. apply Hr.
              apply rem_zero_iff_divide; [lia | exact Hd].
           ++ replace (i + 2 * k) with (i + 2 + 2 * (k - 1)) by ring. apply Hall; lia.
        -- intros Hall k Hk Hle'. replace (i + 2 + 2 * k) with (i + 2 * (k + 1)) by ring.
           apply Hall; lia.
    + split; [intros _ k Hk Hle'; lia | reflexivity].
Qed.

(** A number of at least 2 is prime exactly when it has no divisor between
    2 and its integer square root. *)
Lemma prime_by_trial_division (n : Z) : 2 <= n ->
  (Z.prime n <-> forall d, 2 <= d <= Z.sqrt n -> ~ (d | n)).
Proof.
  intro Hn. pose proof (Z.sqrt_spec n ltac:(lia)) as [Hs1 Hs2].
  pose proof (Z.sqrt_nonneg n) as Hs0. pose proof (Z.sqrt_lt_lin n ltac:(lia)) as Hsl.
  split.
  - intros [_ Hp] d Hd Hdiv. apply (Hp d); [lia | exact Hdiv].
  - intros Hall. split; [lia|]. intros d Hd [e He].
    assert (He1 : 1 < e) by nia.
    destruct (Z.le_gt_cases d (Z.sqrt n)) as [Hds|Hds].
    + apply (Hall d); [lia | exists e; exact He].
    + assert (Hes : e <= Z.sqrt n).
      { destruct (Z.le_gt_cases e (Z.sqrt n)) as [H|H]; [exact H|].
        exfalso. rewrite <- Z.add_1_r in Hs2. nia. }
      apply (Hall e); [lia | exists d; lia].
Qed.

Lemma is_prime_odd_case (n : Z) : 5 <= n -> Z.rem n 2 <> 0 ->
  (odd_divisor_loop n (isqrt n) 3 (Z.to_nat (isqrt n)) = Prime <-> Z.prime n).
Proof.
  intros Hn Hodd. unfold isqrt.
  pose proof (Z.sqrt_nonneg n) as Hs0.
  rewrite odd_divisor_loop_spec by (rewrite ?Z2Nat.id; lia).
  rewrite prime_by_trial_division by lia. split.
  - intros Hall d Hd Hdiv.
    destruct (Z.Even_or_Odd d) as [[q Hq]|[q Hq]].
    + apply Hodd. apply rem_zero_iff_divide; [lia|].
      apply (Z.divide_trans _ d); [exists q; lia | exact Hdiv].
    + apply (Hall (q - 1)); [lia | lia |].
      replace (3 + 2 * (q - 1)) with d by lia. exact Hdiv.
  - intros Hall k Hk Hle. apply Hall. lia.
Qed.

(** What [is_prime] returns, for every [int]. *)
Lemma is_prime_spec (n : Z) :
  match is_prime n with
  | Throw e => n <= 0 /\ e = invalid_argument "Number must be positive"
  | Ok Prime => Z.prime n
  | Ok NotPrime => 0 < n /\ ~ Z.prime n
  end.
Proof.
  unfold is_prime.
  destruct (Z.leb_spec n 0) as [H0|H0]; [split; [lia | reflexivity]|].
  destruct (Z.eqb_spec n 1) as [->|H1]; [split; [lia | apply Z.not_prime_1]|].
  destruct (Z.eqb_spec n 2) as [->|H2]; [apply Z.prime_2|].
  destruct (Z.eqb_spec n 3) as [->|H3]; [apply Z.prime_3|]. cbn [orb].
  destruct (Z.eqb_spec (Z.rem n 2) 0) as [He|He].
  - split; [lia|]. intros [_ Hp]. apply (Hp 2); [lia|].
    apply rem_zero_iff_divide; [lia | exact He].
  - assert (Hn5 : 5 <= n).
    { destruct (Z.eq_dec n 4) as [->|]; [exfalso; apply He; reflexivity | lia]. }
    pose proof (is_prime_odd_case n Hn5 He) as Hiff.
    destruct (odd_divisor_loop n (isqrt n) 3 (Z.to_nat (isqrt n))).
    + apply Hiff. reflexivity.
    + split; [lia|]. intro Hp. apply Hiff in Hp. discriminate.
Qed.

End Primes.

(** ** Proofs: printing loops *)

Section Loops.
Local Open Scope Z_scope.

Lemma prime_b_spec (p : Z) : prime_b p = true <-> Z.prime p.
Proof.
  unfold prime_b. rewrite Znumtheory.prime_alt.
  destruct (Znumtheory.prime_dec p); split; intro H; tauto || discriminate.
Qed.

Lemma number_lines_nil (prefix suffix : string) : number_lines prefix suffix [] = "".
Proof. reflexivity. Qed.

Lemma prime_numbers_loop_spec (end_ : Z) (prefix suffix : string) : forall fuel i st,
  1 <= i -> end_ - i + 1 < Z.of_nat fuel ->
  prime_numbers_loop i end_ prefix suffix fuel st
  = Ok (write st (number_lines prefix suffix
                    (filter prime_b (zseq i (Z.to_nat (end_ - i + 1)))))).
Proof.
  induction fuel as [|f IH]; intros i st Hi Hf; cbn [prime_numbers_loop].
  - replace (Z.to_nat (end_ - i + 1)) with 0%nat by lia. cbn. rewrite write_empty. reflexivity.
  - destruct (Z.leb_spec i end_) as [Hle|Hgt].
    + replace (Z.to_nat (end_ - i + 1)) with (S (Z.to_nat (end_ - (i + 1) + 1))) by lia.
      rewrite zseq_cons. cbn [filter].
      pose proof (is_prime_spec i) as Hp. destruct (is_prime i) as [[|]|e].
      * rewrite (proj2 (prime_b_spec i) Hp), number_lines_cons, IH by lia.
        rewrite write_write. reflexivity.
      * destruct Hp as [_ Hnp]. destruct (prime_b i) eqn:E.
        -- apply prime_b_spec in E. contradiction.
        -- apply IH; lia.
      * lia.
    + replace (Z.to_nat (end_ - i + 1)) with 0%nat by lia. cbn. rewrite write_empty. reflexivity.
Qed.

Lemma header_then (header : string) (st : io) (text : string) :
  write (match header with EmptyString => st | _ => write st (header ++ endl) end) text
  = write st (header_line header ++ text).
Proof. destruct header; cbn [header_line]; [reflexivity | apply write_write]. Qed.

Lemma range_up_spec (n : Z) (prefix suffix : string) : forall fuel i st,
  n - i + 1 < Z.of_nat fuel ->
  range_up i n prefix suffix fuel st
  = write st (number_lines prefix suffix (zseq i (Z.to_nat (n - i + 1)))).
Proof.
  induction fuel as [|f IH]; intros i st Hf; cbn [range_up].
  - replace (Z.to_nat (n - i + 1)) with 0%nat by lia. cbn. rewrite write_empty. reflexivity.
  - destruct (Z.leb_spec i n) as [Hle|Hgt].
    + replace (Z.to_nat (n - i + 1)) with (S (Z.to_nat (n - (i + 1) + 1))) by lia.
      rewrite zseq_cons, number_lines_cons, IH by lia. apply write_write.
    + replace (Z.to_nat (n - i + 1)) with 0%nat by lia. cbn. rewrite write_empty. reflexivity.
Qed.

Lemma range_down_spec (prefix suffix : string) : forall fuel i st,
  i < Z.of_nat fuel ->
  range_down i prefix suffix fuel st
  = write st (number_lines prefix suffix (rev (zseq 1 (Z.to_nat i)))).
Proof.
  induction fuel as [|f IH]; intros i st Hf; cbn [range_down].
  - replace (Z.to_nat i) with 0%nat by lia. cbn. rewrite write_empty. reflexivity.
  - destruct (Z.geb_spec i 1) as [Hge|Hlt].
    + replace (Z.to_nat i) with (S (Z.to_nat (i - 1))) by lia.
      rewrite zseq_snoc, rev_unit.
      replace (1 + Z.of_nat (Z.to_nat (i - 1))) with i by lia.
      rewrite number_lines_cons, IH by lia. apply write_write.
    + replace (Z.to_nat i) with 0%nat by lia. cbn. rewrite write_empty. reflexivity.
Qed.

Lemma to_char_small (z : Z) : CHAR_MIN <= z <= CHAR_MAX -> to_char z = z.
Proof. unfold to_char, CHAR_MIN, CHAR_MAX. intro H. rewrite Z.mod_small by lia. lia. Qed.

Lemma to_char_range (z : Z) : CHAR_MIN <= to_char z <= CHAR_MAX.
Proof.
  unfold to_char, CHAR_MIN, CHAR_MAX.
  pose proof (Z.mod_pos_bound (z + 128) 256 ltac:(lia)). lia.
Qed.

Lemma char_lines_cons (prefix suffix : string) (c : Z) (cs : list Z) :
  String.concat "" (map (char_line prefix suffix) (c :: cs))
  = char_line prefix suffix c ++ String.concat "" (map (char_line prefix suffix) cs).
Proof. cbn [map]. apply concat_empty_sep_cons. Qed.

Lemma char_range_up_spec (end_ : Z) (prefix suffix : string) : forall fuel c st,
  CHAR_MIN <= c -> end_ < CHAR_MAX -> (Z.to_nat (end_ - c + 1) < fuel)%nat ->
  char_range_up c end_ prefix suffix fuel st
  = Some (write st (String.concat "" (map (char_line prefix suffix)
                                         (zseq c (Z.to_nat (end_ - c + 1)))))).
Proof.
  induction fuel as [|f IH]; intros c st Hc Hend Hf; [lia|]. cbn [char_range_up].
  unfold CHAR_MIN, CHAR_MAX in *.
  destruct (Z.leb_spec c end_) as [Hle|Hgt].
    + rewrite to_char_small by (unfold CHAR_MIN, CHAR_MAX; lia).
      replace (Z.to_nat (end_ - c + 1)) with (S (Z.to_nat (end_ - (c + 1) + 1))) by lia.
      rewrite zseq_cons, char_lines_cons, IH by lia. rewrite write_write. reflexivity.
    + replace (Z.to_nat (end_ - c + 1)) with 0%nat by lia. cbn. rewrite write_empty. reflexivity.
Qed.

Lemma char_range_down_spec (start : Z) (prefix suffix : string) : forall fuel c st,
  CHAR_MIN < start -> c <= CHAR_MAX -> (Z.to_nat (c - start + 1) < fuel)%nat ->
  char_range_down c start prefix suffix fuel st
  = Some (write st (String.concat "" (map (char_line prefix suffix)
                                         (rev (zseq start (Z.to_nat (c - start + 1))))))).
Proof.
  induction fuel as [|f IH]; intros c st Hs Hc Hf; [lia|]. cbn [char_range_down].
  unfold CHAR_MIN, CHAR_MAX in *.
  destruct (Z.geb_spec c start) as [Hge|Hlt].
    + rewrite to_char_small by (unfold CHAR_MIN, CHAR_MAX; lia).
      replace (Z.to_nat (c - start + 1)) with (S (Z.to_nat (c - 1 - start + 1))) by lia.
      rewrite zseq_snoc, rev_unit.
      replace (start + Z.of_nat (Z.to_nat (c - 1 - start + 1))) with c by lia.
      rewrite char_lines_cons, IH by lia. rewrite write_write. reflexivity.
    + replace (Z.to_nat (c - start + 1)) with 0%nat by lia. cbn. rewrite write_empty. reflexivity.
Qed.

Lemma char_range_up_at_max (prefix suffix : string) : forall fuel c st,
  CHAR_MIN <= c <= CHAR_MAX -> char_range_up c CHAR_MAX prefix suffix fuel st = None.
Proof.
  induction fuel as [|f IH]; intros c st Hc; cbn [char_range_up]; [reflexivity|].
  destruct (Z.leb_spec c CHAR_MAX) as [_|H]; [|lia].
  apply IH. apply to_char_range.
Qed.

Lemma char_range_down_at_min (prefix suffix : string) : forall fuel c st,
  CHAR_MIN <= c <= CHAR_MAX -> char_range_down c CHAR_MIN prefix suffix fuel st = None.
Proof.
  induction fuel as [|f IH]; intros c st Hc; cbn [char_range_down]; [reflexivity|].
  destruct (Z.geb_spec c CHAR_MIN) as [_|H]; [|lia].
  apply IH. apply to_char_range.
Qed.

End Loops.

(** ** Proofs: reading lines, authentication, durations, names *)

Lemma getline_chars_line (l rest : string) :
  ~ In nl (list_ascii_of_string l) -> getline_chars (l ++ endl ++ rest) = (l, rest, true).
Proof.
  change (endl ++ rest) with (String nl rest).
  induction l as [|c l IH]; intro Hn; cbn.
  - reflexivity.
  - destruct (Ascii.eqb_spec c nl) as [->|Hc]; [exfalso; apply Hn; left; reflexivity|].
    rewrite IH; [reflexivity | intro H; apply Hn; right; exact H].
Qed.

(** A [std::string] read of a non-empty line that the predicate accepts
    returns that line after one prompt. *)
Lemma read_value_line (fuel : nat) (prompt : string) (validator : string -> bool)
    (error_msg l rest out : string) :
  l <> "" -> ~ In nl (list_ascii_of_string l) -> validator l = true ->
  read_value (T:=string) (S fuel) prompt validator error_msg
    (mk_io (mk_istream (l ++ endl ++ rest) false false) out)
  = Some (l, mk_io (mk_istream rest false false) (out ++ prompt)).
Proof.
  intros Hne Hn Hv. unfold read_value. cbn [read_value_loop].
  unfold read_attempt, write. cbn [cin cout read_mode_of Readable_string read_input].
  unfold getline. cbn [good eofbit failbit negb andb buf].
  rewrite getline_chars_line by exact Hn.
  destruct l as [|c l]; [contradiction|]. cbn [is_valid InputValidator_string].
  rewrite Hv. reflexivity.
Qed.

Lemma read_value_non_empty (fuel : nat) (prompt error_msg : string) (st : io) (v : string)
    (st' : io) :
  read_value (T:=string) fuel prompt non_empty error_msg st = Some (v, st') -> v <> "".
Proof.
  unfold read_value. intro H. apply read_value_loop_valid in H. destruct H as [_ H].
  destruct v; [discriminate | intro E; discriminate E].
Qed.

Lemma authenticate_with_pin_loop_outcome (fuel : nat) (correctPin prompt : string)
    (maxAttempts : nat) (failureMsg : string) : forall attempts st r st',
  authenticate_with_pin_loop fuel correctPin prompt maxAttempts failureMsg attempts st
  = Some (r, st') ->
  (r = mk_auth true "Authentication successful" /\ correctPin <> "") \/
  (r = mk_auth false "Maximum authentication attempts exceeded" /\ maxAttempts <> 0%nat).
Proof.
  induction fuel as [|f IH]; intros attempts st r st' H; cbn [authenticate_with_pin_loop] in H;
    [discriminate|].
  destruct (Nat.eqb maxAttempts 0 || Nat.ltb attempts maxAttempts) eqn:Ec.
  - destruct (read_value (T:=string) (S f) prompt non_empty _ st) as [[pin st1]|] eqn:Er;
      [|discriminate].
    apply read_value_non_empty in Er.
    destruct (String.eqb_spec pin correctPin) as [<-|Hne].
    + injection H as <- _. left. split; [reflexivity | exact Er].
    + eapply IH. exact H.
  - injection H as <- _. right. split; [reflexivity|].
    apply orb_false_iff in Ec. destruct Ec as [E _]. apply Nat.eqb_neq. exact E.
Qed.

Lemma authenticate_with_credentials_loop_outcome (fuel : nat)
    (validator : string -> string -> bool) (usernamePrompt passwordPrompt : string)
    (maxAttempts : nat) (failureMsg : string) : forall attempts st r st',
  authenticate_with_credentials_loop fuel validator usernamePrompt passwordPrompt
    maxAttempts failureMsg attempts st = Some (r, st') ->
  (r = mk_auth true "Authentication successful" /\
   exists username password,
     username <> "" /\ password <> "" /\ validator username password = true) \/
  (r = mk_auth false "Maximum authentication attempts exceeded" /\ maxAttempts <> 0%nat).
Proof.
  induction fuel as [|f IH]; intros attempts st r st' H;
    cbn [authenticate_with_credentials_loop] in H; [discriminate|].
  destruct (Nat.eqb maxAttempts 0 || Nat.ltb attempts maxAttempts) eqn:Ec.
  - destruct (read_value (T:=string) (S f) usernamePrompt non_empty _ st)
      as [[username st1]|] eqn:Eu; [|discriminate].
    destruct (read_value (T:=string) (S f) passwordPrompt non_empty _ st1)
      as [[password st2]|] eqn:Ep; [|discriminate].
    apply read_value_non_empty in Eu. apply read_value_non_empty in Ep.
    destruct (validator username password) eqn:Ev.
    + injection H as <- _. left. split; [reflexivity|].
      exists username, password. auto.
    + eapply IH. exact H.
  - injection H as <- _. right. split; [reflexivity|].
    apply orb_false_iff in Ec. destruct Ec as [E _]. apply Nat.eqb_neq. exact E.
Qed.

Lemma repeat_text_S (s : string) (n : nat) : repeat_text s (S n) = s ++ repeat_text s n.
Proof. unfold repeat_text. cbn [repeat]. apply concat_empty_sep_cons. Qed.

Lemma input_lines_cons (w : string) (ws : list string) (tail : string) :
  input_lines (w :: ws) ++ tail = w ++ endl ++ (input_lines ws ++ tail).
Proof.
  unfold input_lines. cbn [map]. rewrite concat_empty_sep_cons, !string_app_assoc.
  reflexivity.
Qed.

Lemma pin_loop_accepts_after_wrong (correctPin prompt : string) (maxAttempts : nat)
    (failureMsg rest : string) : forall wrong fuel attempts out,
  Forall (wrong_pin correctPin) wrong ->
  correctPin <> "" -> ~ In nl (list_ascii_of_string correctPin) ->
  (maxAttempts = 0 \/ attempts + length wrong < maxAttempts)%nat ->
  (length wrong < fuel)%nat ->
  authenticate_with_pin_loop fuel correctPin prompt maxAttempts failureMsg attempts
    (mk_io (mk_istream (input_lines wrong ++ correctPin ++ endl ++ rest) false false) out)
  = Some (mk_auth true "Authentication successful",
          mk_io (mk_istream rest false false)
            (out ++ repeat_text (prompt ++ failureMsg ++ endl) (length wrong) ++ prompt)).
Proof.
  induction wrong as [|w ws IH]; intros fuel attempts out Hw Hc Hcn Hmax Hf;
    (destruct fuel as [|f]; [cbn in Hf; lia|]); cbn [authenticate_with_pin_loop].
  - assert (E : (Nat.eqb maxAttempts 0 || Nat.ltb attempts maxAttempts) = true).
    { apply orb_true_iff. cbn [length] in Hmax.
      destruct Hmax; [left; apply Nat.eqb_eq | right; apply Nat.ltb_lt]; lia. }
    rewrite E. cbn [input_lines map String.concat].
    change ("" ++ correctPin ++ endl ++ rest) with (correctPin ++ endl ++ rest).
    rewrite read_value_line; [| exact Hc | exact Hcn | destruct correctPin; [contradiction | reflexivity]].
    rewrite String.eqb_refl. reflexivity.
  - inversion Hw as [|? ? [Hne [Hn Hneq]] Hws]; subst. cbn [length] in Hmax, Hf.
    assert (E : (Nat.eqb maxAttempts 0 || Nat.ltb attempts maxAttempts) = true).
    { apply orb_true_iff. destruct Hmax; [left; apply Nat.eqb_eq | right; apply Nat.ltb_lt]; lia. }
    rewrite E, input_lines_cons.
    rewrite read_value_line; [| exact Hne | exact Hn | destruct w; [contradiction | reflexivity]].
    destruct (String.eqb_spec w correctPin) as [|_]; [contradiction|].
    assert (E2 : (Nat.eqb maxAttempts 0 || Nat.ltb (S attempts) maxAttempts) = true).
    { apply orb_true_iff. destruct Hmax; [left; apply Nat.eqb_eq | right; apply Nat.ltb_lt]; lia. }
    rewrite E2. unfold write. cbn [cin cout].
    rewrite IH; [| exact Hws | exact Hc | exact Hcn | lia | lia].
    cbn [length]. rewrite repeat_text_S, !string_app_assoc. reflexivity.
Qed.

Lemma pin_loop_lockout (correctPin prompt : string) (failureMsg rest : string) :
  forall ws w fuel attempts out,
  Forall (wrong_pin correctPin) (w :: ws) ->
  (length (w :: ws) < fuel)%nat ->
  authenticate_with_pin_loop fuel correctPin prompt (attempts + length (w :: ws)) failureMsg
    attempts (mk_io (mk_istream (input_lines (w :: ws) ++ rest) false false) out)
  = Some (mk_auth false "Maximum authentication attempts exceeded",
          mk_io (mk_istream rest false false)
            (out ++ repeat_text (prompt ++ failureMsg ++ endl) (length ws) ++ prompt)).
Proof.
  induction ws as [|w2 ws IH]; intros w fuel attempts out Hw Hf;
    (destruct fuel as [|f]; [cbn in Hf; lia|]); cbn [authenticate_with_pin_loop];
    inversion Hw as [|? ? [Hne [Hn Hneq]] Hws]; subst; cbn [length] in *.
  - assert (E : (Nat.eqb (attempts + 1) 0 || Nat.ltb attempts (attempts + 1)) = true).
    { apply orb_true_iff. right. apply Nat.ltb_lt. lia. }
    rewrite E, input_lines_cons.
    rewrite read_value_line; [| exact Hne | exact Hn | destruct w; [contradiction | reflexivity]].
    destruct (String.eqb_spec w correctPin) as [|_]; [contradiction|].
    assert (E2 : (Nat.eqb (attempts + 1) 0 || Nat.ltb (S attempts) (attempts + 1)) = false).
    { apply orb_false_iff. split; [apply Nat.eqb_neq | apply Nat.ltb_ge]; lia. }
    rewrite E2. destruct f as [|f]; [lia|]. cbn [authenticate_with_pin_loop].
    replace (Nat.eqb (attempts + 1) 0 || Nat.ltb (S attempts) (attempts + 1)) with false
      by (symmetry; apply orb_false_iff; split; [apply Nat.eqb_neq | apply Nat.ltb_ge]; lia).
    reflexivity.
  - assert (E : (Nat.eqb (attempts + S (S (length ws))) 0
                 || Nat.ltb attempts (attempts + S (S (length ws)))) = true).
    { apply orb_true_iff. right. apply Nat.ltb_lt. lia. }
    rewrite E, input_lines_cons.
    rewrite read_value_line; [| exact Hne | exact Hn | destruct w; [contradiction | reflexivity]].
    destruct (String.eqb_spec w correctPin) as [|_]; [contradiction|].
    assert (E2 : (Nat.eqb (attempts + S (S (length ws))) 0
                  || Nat.ltb (S attempts) (attempts + S (S (length ws)))) = true).
    { apply orb_true_iff. right. apply Nat.ltb_lt. lia. }
    rewrite E2. unfold write. cbn [cin cout].
    replace (attempts + S (S (length ws)))%nat with (S attempts + length (w2 :: ws))%nat
      by (cbn [length]; lia).
    rewrite IH; [| exact Hws | cbn [length]; lia].
    cbn [length]. rewrite repeat_text_S, !string_app_assoc. reflexivity.
Qed.

Lemma read_number_int_range (fuel : nat) (prompt : string) (lo hi : Z) (st : io) (v : Z)
    (st' : io) :
  read_number (T:=Z) fuel prompt lo hi st = Some (v, st') -> (lo <= v <= hi)%Z.
Proof.
  unfold read_number, read_value. intro H. apply read_value_loop_valid in H.
  destruct H as [_ H]. cbn [num_ge num_le Arithmetic_int] in H.
  apply andb_prop in H. destruct H as [H1 H2].
  apply Z.geb_le in H1. apply Z.leb_le in H2. lia.
Qed.

Lemma all_of_spec (p : ascii -> bool) (s : string) :
  all_of p s = true <-> forall c, In c (list_ascii_of_string s) -> p c = true.
Proof.
  induction s as [|c s IH]; cbn [all_of list_ascii_of_string In].
  - split; [intros _ c [] | reflexivity].
  - rewrite andb_true_iff, IH. split.
    + intros [Hc Hs] d [<-|Hd]; [exact Hc | exact (Hs d Hd)].
    + intro H. split; [apply H; left; reflexivity | intros d Hd; apply H; right; exact Hd].
Qed.

Lemma SFeqb_not_nan (f : spec_float) : SFeqb f f = false -> f = S754_nan.
Proof.
  destruct f as [s|s| |s m e]; [destruct s; discriminate | destruct s; discriminate | reflexivity|].
  unfold SFeqb, SFcompare. rewrite Z.compare_refl, Pos.compare_cont_refl.
  destruct s; discriminate.
Qed.


(** ** Properties of the number utilities *)

(** Extra X1: [is_prime] throws [invalid_argument("Number must be
    positive")] exactly for the numbers [<= 0]; for positive numbers it
    answers [Prime] exactly for the prime numbers (the trial division by 2
    and by the odd numbers up to the integer square root is complete). *)
Theorem is_prime_correct (n : Z) :
  match is_prime n with
  | Throw e => (n <= 0)%Z /\ e = invalid_argument "Number must be positive"
  | Ok Prime => Z.prime n
  | Ok NotPrime => (0 < n)%Z /\ ~ Z.prime n
  end.
Proof. exact (is_prime_spec n). Qed.

(** Extra X2: [print_prime_numbers] first raises a [start] below 1 to 1;
    it throws [invalid_argument] when [end] is below that start, and
    otherwise prints the header line (if not empty) and then, in increasing
    order, one line [prefix ++ p ++ suffix] for exactly the primes [p]
    between the start and [end] (for [end < INT_MAX]; at [INT_MAX] the loop
    counter overflows). *)
Theorem print_prime_numbers_output (start end_ : Z) (header prefix suffix : string) (st : io) :
  (end_ < INT_MAX)%Z ->
  print_prime_numbers start end_ header prefix suffix st
  = if (end_ <? Z.max start 1)%Z
    then Throw (invalid_argument "End value must be greater than or equal to start value")
    else Ok (write st (header_line header ++ number_lines prefix suffix
                         (filter prime_b (zseq (Z.max start 1)
                                               (Z.to_nat (end_ - Z.max start 1 + 1)))))).
Proof.
  intros _. unfold print_prime_numbers.
  replace (if (start <? 1)%Z then 1%Z else start) with (Z.max start 1)
    by (destruct (Z.ltb_spec start 1); lia).
  destruct (Z.ltb_spec end_ (Z.max start 1)) as [Hlt|Hge]; [reflexivity|].
  rewrite prime_numbers_loop_spec by lia. rewrite header_then. reflexivity.
Qed.

Lemma print_prime_numbers_output_witness :
  print_prime_numbers (-5) 20 "Primes:" "" "" (console "")
  = Ok (write (console "") (header_line "Primes:" ++ number_lines "" ""
                              (filter prime_b (zseq 1 20)))).
Proof.
  rewrite (print_prime_numbers_output (-5) 20 "Primes:" "" "" (console ""))
    by (unfold INT_MAX; lia).
  reflexivity.
Defined.

(** Extra X3: [print_range] prints the header line (if not empty) and then
    one line [prefix ++ i ++ suffix] for [i = 1, ..., n] in increasing
    order, or for [i = n, ..., 1] when [descending]; nothing after the
    header when [n <= 0] (for [n < INT_MAX]; at [INT_MAX] the ascending loop
    counter overflows). *)
Theorem print_range_output (n : Z) (header prefix suffix : string) (st : io) :
  (n < INT_MAX)%Z ->
  print_range n header prefix suffix false st
    = write st (header_line header ++ number_lines prefix suffix (zseq 1 (Z.to_nat n))) /\
  print_range n header prefix suffix true st
    = write st (header_line header ++ number_lines prefix suffix (rev (zseq 1 (Z.to_nat n)))).
Proof.
  intros _. unfold print_range. split.
  - rewrite range_up_spec by lia. rewrite header_then.
    replace (n - 1 + 1)%Z with n by lia. reflexivity.
  - rewrite range_down_spec by lia. apply header_then.
Qed.

Lemma print_range_output_witness :
  print_range 3 "Range:" "" "" false (console "")
    = write (console "") (header_line "Range:" ++ number_lines "" "" (zseq 1 (Z.to_nat 3))) /\
  print_range 3 "Range:" "" "" true (console "")
    = write (console "") (header_line "Range:" ++ number_lines "" "" (rev (zseq 1 (Z.to_nat 3)))).
Proof.
  apply (print_range_output 3 "Range:" "" "" (console "")). unfold INT_MAX. lia.
Defined.

(** Extra X4: for a signed 8-bit [char], when [start > CHAR_MIN] and
    [end < CHAR_MAX], [print_char_range] terminates after at most
    [end - start + 2] loop tests and prints the header line (if not empty)
    and then one line [prefix ++ c ++ suffix] for each character [c] from
    [start] to [end], in that order, or from [end] down to [start] when
    [descending]. *)
Theorem print_char_range_output (start end_ : Z) (header prefix suffix : string)
    (fuel : nat) (st : io) :
  (CHAR_MIN < start)%Z -> (end_ < CHAR_MAX)%Z -> (Z.to_nat (end_ - start + 1) < fuel)%nat ->
  print_char_range start end_ header prefix suffix false fuel st
    = Some (write st (header_line header ++ String.concat "" (map (char_line prefix suffix)
                        (zseq start (Z.to_nat (end_ - start + 1)))))) /\
  print_char_range start end_ header prefix suffix true fuel st
    = Some (write st (header_line header ++ String.concat "" (map (char_line prefix suffix)
                        (rev (zseq start (Z.to_nat (end_ - start + 1))))))).
Proof.
  intros Hs He Hf. unfold print_char_range. split.
  - rewrite char_range_up_spec by (unfold CHAR_MIN in *; lia). rewrite header_then. reflexivity.
  - rewrite char_range_down_spec by (unfold CHAR_MAX in *; lia). rewrite header_then. reflexivity.
Qed.

Lemma print_char_range_output_witness :
  print_char_range 97 100 "Letters:" "" "" false 5 (console "")
    = Some (write (console "") (header_line "Letters:" ++ String.concat ""
              (map (char_line "" "") (zseq 97 (Z.to_nat (100 - 97 + 1)))))) /\
  print_char_range 97 100 "Letters:" "" "" true 5 (console "")
    = Some (write (console "") (header_line "Letters:" ++ String.concat ""
              (map (char_line "" "") (rev (zseq 97 (Z.to_nat (100 - 97 + 1))))))).
Proof.
  apply (print_char_range_output 97 100 "Letters:" "" "" 5 (console ""));
    [unfold CHAR_MIN; lia | unfold CHAR_MAX; lia | cbn; lia].
Defined.

(** Extra X5: for a signed 8-bit [char], [print_char_range] never
    terminates when an ascending range ends at [CHAR_MAX] (127) or a
    descending range starts at [CHAR_MIN] (-128): [++c] and [--c] wrap
    around, so the loop test always holds. *)
Theorem print_char_range_never_returns (start end_ : Z) (header prefix suffix : string)
    (fuel : nat) (st : io) :
  (CHAR_MIN <= start <= CHAR_MAX)%Z -> (CHAR_MIN <= end_ <= CHAR_MAX)%Z ->
  (end_ = CHAR_MAX -> print_char_range start end_ header prefix suffix false fuel st = None) /\
  (start = CHAR_MIN -> print_char_range start end_ header prefix suffix true fuel st = None).
Proof.
  intros Hs He. unfold print_char_range. split; intros ->.
  - apply char_range_up_at_max. exact Hs.
  - apply char_range_down_at_min. exact He.
Qed.

Lemma print_char_range_never_returns_witness :
  print_char_range 120 CHAR_MAX "" "" "" false 1000 (console "") = None.
Proof.
  apply (proj1 (print_char_range_never_returns 120 CHAR_MAX "" "" "" 1000 (console "")
                  ltac:(unfold CHAR_MIN, CHAR_MAX; lia) ltac:(unfold CHAR_MIN, CHAR_MAX; lia))).
  reflexivity.
Defined.

(** Extra X6: for an [int], [analyze_number] returns exactly two
    properties: first [Even] when 2 divides the number (negative numbers
    included) and [Odd] otherwise, then [Positive], [Negative] or [Zero]
    according to its sign. *)
Theorem analyze_number_int_properties (n : Z) :
  exists parity sign,
    analyze_number_int n = [parity; sign] /\
    (parity = Even <-> (2 | n)%Z) /\ (parity = Odd <-> ~ (2 | n)%Z) /\
    (sign = Positive <-> (0 < n)%Z) /\ (sign = Negative <-> (n < 0)%Z) /\
    (sign = Zero <-> n = 0%Z).
Proof.
  unfold analyze_number_int. cbn [app]. eexists _, _. split; [reflexivity|].
  rewrite <- (rem_zero_iff_divide n 2) by lia.
  destruct (Z.eqb_spec (Z.rem n 2) 0); destruct (Z.ltb_spec 0 n); destruct (Z.ltb_spec n 0);
    repeat split; intros; first [reflexivity | discriminate | assumption | contradiction | lia].
Qed.

(** Extra X7: [analyze_number] on a NaN [double] reports [Zero]: neither
    [number > 0] nor [number < 0] holds for NaN. *)
Theorem analyze_number_double_nan (x : float) :
  PrimFloat.is_nan x = true -> analyze_number_double x = [Zero].
Proof.
  intro H. assert (Hs : Prim2SF x = S754_nan).
  { apply SFeqb_not_nan. unfold PrimFloat.is_nan in H. rewrite FloatAxioms.eqb_spec in H.
    apply negb_true_iff in H. exact H. }
  unfold analyze_number_double. rewrite !FloatAxioms.ltb_spec, Hs.
  destruct (Prim2SF 0%float); reflexivity.
Qed.

Lemma analyze_number_double_nan_witness :
  PrimFloat.is_nan PrimFloat.nan = true /\ analyze_number_double PrimFloat.nan = [Zero].
Proof.
  assert (H : PrimFloat.is_nan PrimFloat.nan = true) by reflexivity.
  split; [exact H | exact (analyze_number_double_nan PrimFloat.nan H)].
Defined.


(** ** Properties of [read_name] and [TaskDuration] *)

(** Extra X9: a name returned by [read_name] is non-empty and each of its
    characters is a letter, a white-space character, a hyphen or an
    apostrophe. *)
Theorem read_name_valid (fuel : nat) (prompt : string) (st : io) (name : string) (st' : io) :
  read_name fuel prompt st = Some (name, st') ->
  name <> "" /\
  forall c, In c (list_ascii_of_string name) ->
    is_alpha c = true \/ is_space c = true \/ c = "-"%char \/ c = "'"%char.
Proof.
  unfold read_name, read_value. intro H. apply read_value_loop_valid in H.
  destruct H as [_ H]. unfold name_validator in H.
  destruct name as [|c0 r]; [discriminate|]. split; [discriminate|].
  rewrite all_of_spec in H. intros c Hc. specialize (H c Hc).
  rewrite !orb_true_iff in H. destruct H as [[[H|H]|H]|H].
  - left. exact H.
  - right. left. exact H.
  - right. right. left. apply Ascii.eqb_eq. exact H.
  - right. right. right. apply Ascii.eqb_eq. exact H.
Qed.

Lemma read_name_valid_witness :
  read_name 3 "Name: " (console ("R2D2" ++ endl ++ "Mary-Jane O'Neil" ++ endl))
    = Some ("Mary-Jane O'Neil",
            mk_io (mk_istream "" false false)
              ("Name: " ++ "Name should contain only letters, spaces, hyphens, and apostrophes."
               ++ endl ++ "Name: ")) /\
  ("Mary-Jane O'Neil" <> "" /\
   forall c, In c (list_ascii_of_string "Mary-Jane O'Neil") ->
     is_alpha c = true \/ is_space c = true \/ c = "-"%char \/ c = "'"%char).
Proof.
  assert (E : read_name 3 "Name: " (console ("R2D2" ++ endl ++ "Mary-Jane O'Neil" ++ endl))
    = Some ("Mary-Jane O'Neil",
            mk_io (mk_istream "" false false)
              ("Name: " ++ "Name should contain only letters, spaces, hyphens, and apostrophes."
               ++ endl ++ "Name: "))) by (vm_compute; reflexivity).
  split; [exact E | exact (read_name_valid _ _ _ _ _ E)].
Defined.

(** Extra X10: every component of a duration returned by
    [read_task_duration] (days, hours, minutes, seconds) lies between 1 and
    [INT_MAX]. *)
Theorem read_task_duration_in_range (fuel : nat) (st : io) (d : TaskDuration) (st' : io) :
  read_task_duration fuel st = Some (d, st') ->
  (1 <= days d <= INT_MAX)%Z /\ (1 <= hours d <= INT_MAX)%Z /\
  (1 <= minutes d <= INT_MAX)%Z /\ (1 <= seconds d <= INT_MAX)%Z.
Proof.
  unfold read_task_duration. intro H.
  destruct (read_number (T:=Z) fuel "Please Enter Number Of Days? " 1%Z INT_MAX st)
    as [[vd st1]|] eqn:E1; [|discriminate].
  destruct (read_number (T:=Z) fuel "Please Enter Number Of Hours? " 1%Z INT_MAX st1)
    as [[vh st2]|] eqn:E2; [|discriminate].
  destruct (read_number (T:=Z) fuel "Please Enter Number Of Minutes? " 1%Z INT_MAX st2)
    as [[vm st3]|] eqn:E3; [|discriminate].
  destruct (read_number (T:=Z) fuel "Please Enter Number Of Seconds? " 1%Z INT_MAX st3)
    as [[vs st4]|] eqn:E4; [|discriminate].
  injection H as <- _. cbn.
  apply read_number_int_range in E1, E2, E3, E4. auto.
Qed.

Lemma read_task_duration_in_range_witness :
  read_task_duration 2 (console ("2" ++ endl ++ "3" ++ endl ++ "4" ++ endl ++ "5" ++ endl))
    = Some (mk_duration 2 3 4 5,
            mk_io (mk_istream "" false false)
              ("Please Enter Number Of Days? Please Enter Number Of Hours? "
               ++ "Please Enter Number Of Minutes? Please Enter Number Of Seconds? ")) /\
  ((1 <= 2 <= INT_MAX)%Z /\ (1 <= 3 <= INT_MAX)%Z /\
   (1 <= 4 <= INT_MAX)%Z /\ (1 <= 5 <= INT_MAX)%Z).
Proof.
  assert (E : read_task_duration 2 (console ("2" ++ endl ++ "3" ++ endl ++ "4" ++ endl ++ "5" ++ endl))
    = Some (mk_duration 2 3 4 5,
            mk_io (mk_istream "" false false)
              ("Please Enter Number Of Days? Please Enter Number Of Hours? "
               ++ "Please Enter Number Of Minutes? Please Enter Number Of Seconds? ")))
    by (vm_compute; reflexivity).
  split; [exact E | exact (read_task_duration_in_range _ _ _ _ E)].
Defined.

(** Extra X11: for a duration with non-negative components,
    [to_seconds] returns [86400*days + 3600*hours + 60*minutes + seconds]
    when that total is at most [INT_MAX]; otherwise one of its [int]
    operations overflows. *)
Theorem to_seconds_exact (t : TaskDuration) :
  (0 <= days t)%Z -> (0 <= hours t)%Z -> (0 <= minutes t)%Z -> (0 <= seconds t)%Z ->
  to_seconds t
  = if (days t * 86400 + hours t * 3600 + minutes t * 60 + seconds t <=? INT_MAX)%Z
    then Some (days t * 86400 + hours t * 3600 + minutes t * 60 + seconds t)%Z
    else None.
Proof.
  destruct t as [d h m s]; cbn [days hours minutes seconds]. intros Hd Hh Hm Hs.
  unfold to_seconds, int_mul, int_add, int_result, INT_MIN, INT_MAX.
  cbn [days hours minutes seconds].
  repeat (match goal with |- context [Z.leb ?a ?b] => destruct (Z.leb_spec a b) end;
          cbn -[Z.mul Z.add Z.leb]).
  all: first [reflexivity | exfalso; lia | f_equal; lia].
Qed.

Lemma to_seconds_exact_witness :
  to_seconds (mk_duration 24856 1 1 1) = None /\
  to_seconds (mk_duration 1 1 1 1) = Some 90061%Z.
Proof.
  split.
  - rewrite (to_seconds_exact (mk_duration 24856 1 1 1)) by (cbn; lia). reflexivity.
  - rewrite (to_seconds_exact (mk_duration 1 1 1 1)) by (cbn; lia). reflexivity.
Defined.

(** ** Properties of the authentication loops *)

(** Extra X12: [authenticate_with_pin] returns either success with
    "Authentication successful", which requires a non-empty correct PIN
    (an entered PIN is never empty), or failure with "Maximum authentication
    attempts exceeded", which requires a finite attempt limit
    ([maxAttempts <> 0]). *)
Theorem authenticate_with_pin_outcomes (fuel : nat) (correctPin prompt : string)
    (maxAttempts : nat) (failureMsg : string) (st : io) (r : AuthResult) (st' : io) :
  authenticate_with_pin fuel correctPin prompt maxAttempts failureMsg st = Some (r, st') ->
  (r = mk_auth true "Authentication successful" /\ correctPin <> "") \/
  (r = mk_auth false "Maximum authentication attempts exceeded" /\ maxAttempts <> 0%nat).
Proof. apply authenticate_with_pin_loop_outcome. Qed.

Lemma authenticate_with_pin_outcomes_witness :
  authenticate_with_pin 3 "" "PIN: " 1 "Wrong PIN" (console ("12" ++ endl))
    = Some (mk_auth false "Maximum authentication attempts exceeded",
            mk_io (mk_istream "" false false) "PIN: ") /\
  ((mk_auth false "Maximum authentication attempts exceeded"
    = mk_auth true "Authentication successful" /\ "" <> "") \/
   (mk_auth false "Maximum authentication attempts exceeded"
    = mk_auth false "Maximum authentication attempts exceeded" /\ 1%nat <> 0%nat)).
Proof.
  assert (E : authenticate_with_pin 3 "" "PIN: " 1 "Wrong PIN" (console ("12" ++ endl))
    = Some (mk_auth false "Maximum authentication attempts exceeded",
            mk_io (mk_istream "" false false) "PIN: ")) by (vm_compute; reflexivity).
  split; [exact E | exact (authenticate_with_pin_outcomes _ _ _ _ _ _ _ _ E)].
Defined.

(** Extra X13: with an empty correct PIN and no attempt limit
    ([maxAttempts = 0]), [authenticate_with_pin] never returns. *)
Theorem authenticate_with_pin_empty_unlimited (fuel : nat) (prompt failureMsg : string)
    (st : io) :
  authenticate_with_pin fuel "" prompt 0 failureMsg st = None.
Proof.
  destruct (authenticate_with_pin fuel "" prompt 0 failureMsg st) as [[r st']|] eqn:E;
    [|reflexivity].
  apply authenticate_with_pin_loop_outcome in E.
  destruct E as [[_ H]|[_ H]]; exfalso; apply H; reflexivity.
Qed.

(** Extra X14: [authenticate_with_credentials] returns either success with
    "Authentication successful", which requires that the validator accepted
    a non-empty username together with a non-empty password, or failure with
    "Maximum authentication attempts exceeded", which requires
    [maxAttempts <> 0]. *)
Theorem authenticate_with_credentials_outcomes (fuel : nat)
    (validator : string -> string -> bool) (usernamePrompt passwordPrompt : string)
    (maxAttempts : nat) (failureMsg : string) (st : io) (r : AuthResult) (st' : io) :
  authenticate_with_credentials fuel validator usernamePrompt passwordPrompt maxAttempts
    failureMsg st = Some (r, st') ->
  (r = mk_auth true "Authentication successful" /\
   exists username password,
     username <> "" /\ password <> "" /\ validator username password = true) \/
  (r = mk_auth false "Maximum authentication attempts exceeded" /\ maxAttempts <> 0%nat).
Proof. apply authenticate_with_credentials_loop_outcome. Qed.

Lemma authenticate_with_credentials_outcomes_witness :
  exists r st',
    authenticate_with_credentials 3 demo_validator "Username: " "Password: " 2
      "Invalid credentials"
      (console ("bob" ++ endl ++ "x" ++ endl ++ "admin" ++ endl ++ "secret" ++ endl))
    = Some (r, st') /\
    ((r = mk_auth true "Authentication successful" /\
      exists username password,
        username <> "" /\ password <> "" /\ demo_validator username password = true) \/
     (r = mk_auth false "Maximum authentication attempts exceeded" /\ 2%nat <> 0%nat)).
Proof.
  assert (E : authenticate_with_credentials 3 demo_validator "Username: " "Password: " 2
      "Invalid credentials"
      (console ("bob" ++ endl ++ "x" ++ endl ++ "admin" ++ endl ++ "secret" ++ endl))
    = Some (mk_auth true "Authentication successful",
            mk_io (mk_istream "" false false)
              ("Username: Password: Invalid credentials" ++ endl
               ++ "Username: Password: "))) by (vm_compute; reflexivity).
  exists (mk_auth true "Authentication successful"),
    (mk_io (mk_istream "" false false)
       ("Username: Password: Invalid credentials" ++ endl ++ "Username: Password: ")).
  split; [exact E | exact (authenticate_with_credentials_outcomes _ _ _ _ _ _ _ _ _ E)].
Defined.

(** Extra X15: when each input line is a PIN and the entries are [k]
    non-empty wrong PINs followed by the correct (non-empty) PIN, with
    [k] below the attempt limit or no limit, [authenticate_with_pin]
    succeeds after reading exactly those [k + 1] lines: it prompts [k + 1]
    times and prints the failure message after each wrong PIN. *)
Theorem authenticate_with_pin_accepts_after_wrong (correctPin prompt failureMsg : string)
    (maxAttempts fuel : nat) (wrong : list string) (rest out : string) :
  Forall (wrong_pin correctPin) wrong ->
  correctPin <> "" -> ~ In nl (list_ascii_of_string correctPin) ->
  (maxAttempts = 0 \/ length wrong < maxAttempts)%nat ->
  (length wrong < fuel)%nat ->
  authenticate_with_pin fuel correctPin prompt maxAttempts failureMsg
    (mk_io (mk_istream (input_lines wrong ++ correctPin ++ endl ++ rest) false false) out)
  = Some (mk_auth true "Authentication successful",
          mk_io (mk_istream rest false false)
            (out ++ repeat_text (prompt ++ failureMsg ++ endl) (length wrong) ++ prompt)).
Proof.
  intros Hw Hc Hcn Hmax Hf. apply pin_loop_accepts_after_wrong; auto.
Qed.

Lemma authenticate_with_pin_accepts_after_wrong_witness :
  authenticate_with_pin 3 "1234" "PIN: " 3 "Wrong PIN"
    (mk_io (mk_istream (input_lines ["11"; "22"] ++ "1234" ++ endl ++ "") false false) "")
  = Some (mk_auth true "Authentication successful",
          mk_io (mk_istream "" false false)
            ("" ++ repeat_text ("PIN: " ++ "Wrong PIN" ++ endl) (length ["11"; "22"])
                ++ "PIN: ")).
Proof.
  apply (authenticate_with_pin_accepts_after_wrong "1234" "PIN: " "Wrong PIN" 3 3
           ["11"; "22"] "" "").
  - repeat constructor; cbn; try discriminate; intuition discriminate.
  - discriminate.
  - cbn. intuition discriminate.
  - right. cbn. lia.
  - cbn. lia.
Defined.

(** Extra X16: with an attempt limit [maxAttempts = k > 0] and [k] input
    lines that are all non-empty wrong PINs, [authenticate_with_pin] reads
    exactly those [k] lines and returns failure with "Maximum authentication
    attempts exceeded"; it prompts [k] times and prints the failure message
    [k - 1] times, never after the last attempt. *)
Theorem authenticate_with_pin_lockout (correctPin prompt failureMsg : string)
    (maxAttempts fuel : nat) (wrong : list string) (rest out : string) :
  Forall (wrong_pin correctPin) wrong ->
  length wrong = maxAttempts -> (0 < maxAttempts)%nat -> (maxAttempts < fuel)%nat ->
  authenticate_with_pin fuel correctPin prompt maxAttempts failureMsg
    (mk_io (mk_istream (input_lines wrong ++ rest) false false) out)
  = Some (mk_auth false "Maximum authentication attempts exceeded",
          mk_io (mk_istream rest false false)
            (out ++ repeat_text (prompt ++ failureMsg ++ endl) (maxAttempts - 1) ++ prompt)).
Proof.
  intros Hw Hl Hpos Hf. subst maxAttempts.
  destruct wrong as [|w ws]; [cbn in Hpos; lia|].
  unfold authenticate_with_pin.
  pose proof (pin_loop_lockout correctPin prompt failureMsg rest ws w fuel 0 out Hw Hf) as H.
  cbn [Nat.add] in H. rewrite H.
  replace (length (w :: ws) - 1)%nat with (length ws) by (cbn; lia). reflexivity.
Qed.

Lemma authenticate_with_pin_lockout_witness :
  authenticate_with_pin 3 "1234" "PIN: " 2 "Wrong PIN"
    (mk_io (mk_istream (input_lines ["11"; "22"] ++ "") false false) "")
  = Some (mk_auth false "Maximum authentication attempts exceeded",
          mk_io (mk_istream "" false false)
            ("" ++ repeat_text ("PIN: " ++ "Wrong PIN" ++ endl) (2 - 1) ++ "PIN: ")).
Proof.
  apply (authenticate_with_pin_lockout "1234" "PIN: " "Wrong PIN" 2 3 ["11"; "22"] "" "").
  - repeat constructor; cbn; try discriminate; intuition discriminate.
  - reflexivity.
  - lia.
  - lia.
Defined.

(** ** Proofs: perfect numbers *)

Section Perfect.
Local Open Scope Z_scope.

Lemma divides_b_rem (d n : Z) : 0 < d -> divides_b d n = Z.eqb (Z.rem n d) 0.
Proof.
  intro Hd. unfold divides_b.
  destruct (Z.eqb_spec (n mod d) 0) as [H|H]; destruct (Z.eqb_spec (Z.rem n d) 0) as [E|E];
    try reflexivity.
  - exfalso. apply E. apply rem_zero_iff_divide; [lia|]. apply Z.mod_divide; [lia | exact H].
  - exfalso. apply H. apply Z.mod_divide; [lia|]. apply rem_zero_iff_divide; [lia | exact E].
Qed.

Lemma divisor_sum_nonneg (n : Z) : forall k i, 1 <= i ->
  0 <= fold_right Z.add 0 (filter (fun d => divides_b d n) (zseq i k)).
Proof.
  induction k as [|k IH]; intros i Hi; [cbn; lia|].
  rewrite zseq_cons. cbn [filter]. destruct (divides_b i n); cbn [fold_right];
    specialize (IH (i + 1)); lia.
Qed.

(** The loop adds the divisors [i, ..., number - 1] to [sum], and does not
    overflow as long as the final sum fits in [int]. *)
Lemma divisor_sum_loop_spec (number : Z) : forall fuel i sum,
  1 <= i -> number - i < Z.of_nat fuel -> 0 <= sum ->
  sum + fold_right Z.add 0 (filter (fun d => divides_b d number)
                              (zseq i (Z.to_nat (number - i)))) <= INT_MAX ->
  divisor_sum_loop number i sum fuel
  = Some (sum + fold_right Z.add 0 (filter (fun d => divides_b d number)
                                      (zseq i (Z.to_nat (number - i))))).
Proof.
  induction fuel as [|f IH]; intros i sum Hi Hf Hs Hmax; cbn [divisor_sum_loop].
  - replace (Z.to_nat (number - i)) with 0%nat by lia. cbn. f_equal. lia.
  - destruct (Z.ltb_spec i number) as [Hlt|Hge].
    + replace (Z.to_nat (number - i)) with (S (Z.to_nat (number - (i + 1)))) in * by lia.
      rewrite zseq_cons in *. cbn [filter] in *. rewrite divides_b_rem in * by lia.
      pose proof (divisor_sum_nonneg number (Z.to_nat (number - (i + 1))) (i + 1)
                    ltac:(lia)) as Hr.
      destruct (Z.eqb (Z.rem number i) 0); cbn [fold_right] in *.
      * unfold int_add, int_result.
        replace (INT_MIN <=? sum + i) with true
          by (symmetry; apply Z.leb_le; unfold INT_MIN; lia).
        replace (sum + i <=? INT_MAX) with true by (symmetry; apply Z.leb_le; lia).
        cbn [andb]. rewrite IH by lia. f_equal. lia.
      * apply IH; lia.
    + replace (Z.to_nat (number - i)) with 0%nat by lia. cbn. f_equal. lia.
Qed.

Lemma is_perfect_number_spec (n : Z) : 0 < n -> proper_divisor_sum n <= INT_MAX ->
  is_perfect_number n = Some (Ok (if perfect_b n then Perfect else NotPerfect)).
Proof.
  intros Hn Hmax. unfold is_perfect_number, perfect_b, proper_divisor_sum in *.
  destruct (Z.leb_spec n 0) as [H|_]; [lia|].
  rewrite divisor_sum_loop_spec by lia. reflexivity.
Qed.

Lemma perfect_numbers_loop_spec (end_ : Z) (prefix suffix : string) : forall fuel i st,
  1 <= i -> end_ - i + 1 < Z.of_nat fuel ->
  Forall (fun k => proper_divisor_sum k <= INT_MAX) (zseq i (Z.to_nat (end_ - i + 1))) ->
  perfect_numbers_loop i end_ prefix suffix fuel st
  = Some (Ok (write st (number_lines prefix suffix
                          (filter perfect_b (zseq i (Z.to_nat (end_ - i + 1))))))).
Proof.
  induction fuel as [|f IH]; intros i st Hi Hf Hall; cbn [perfect_numbers_loop].
  - replace (Z.to_nat (end_ - i + 1)) with 0%nat by lia. cbn. rewrite write_empty. reflexivity.
  - destruct (Z.leb_spec i end_) as [Hle|Hgt].
    + replace (Z.to_nat (end_ - i + 1)) with (S (Z.to_nat (end_ - (i + 1) + 1))) in * by lia.
      rewrite zseq_cons in *. inversion Hall as [|? ? Hi_max Hrest]; subst.
      cbn [filter]. rewrite is_perfect_number_spec by lia.
      destruct (perfect_b i).
      * rewrite number_lines_cons, IH by lia || exact Hrest. rewrite write_write. reflexivity.
      * apply IH; [lia | lia | exact Hrest].
    + replace (Z.to_nat (end_ - i + 1)) with 0%nat by lia. cbn. rewrite write_empty. reflexivity.
Qed.

End Perfect.

(** Extra X17: [is_perfect_number] throws [invalid_argument] for a number
    [n <= 0]; for [n > 0] whose proper divisors sum to at most [INT_MAX] it
    returns [Perfect] exactly when [n] equals the sum of its divisors [d]
    with [1 <= d < n] (a larger sum overflows the [int] accumulator). *)
Theorem is_perfect_number_correct (n : Z) :
  ((n <= 0)%Z -> is_perfect_number n = Some (Throw (invalid_argument "Number must be positive")))
  /\ ((0 < n)%Z -> (proper_divisor_sum n <= INT_MAX)%Z ->
      is_perfect_number n
      = Some (Ok (if Z.eqb (proper_divisor_sum n) n then Perfect else NotPerfect))).
Proof.
  split.
  - intro Hn. unfold is_perfect_number. destruct (Z.leb_spec n 0); [reflexivity | lia].
  - intros Hn Hmax. exact (is_perfect_number_spec n Hn Hmax).
Qed.

Lemma is_perfect_number_correct_witness :
  is_perfect_number 0 = Some (Throw (invalid_argument "Number must be positive"))
  /\ is_perfect_number 28
     = Some (Ok (if Z.eqb (proper_divisor_sum 28) 28 then Perfect else NotPerfect)).
Proof.
  split.
  - apply (proj1 (is_perfect_number_correct 0)). lia.
  - apply (proj2 (is_perfect_number_correct 28)); [lia | vm_compute; discriminate].
Defined.

(** Extra X18: [print_perfect_numbers] first raises a [start] below 1 to 1
    (it does not throw for it); it throws [invalid_argument] only when [end]
    is below that start, and otherwise prints the header line (if not empty)
    and then, in increasing order, one line [prefix ++ p ++ suffix] for
    exactly the perfect numbers [p] between the start and [end] (for
    [end < INT_MAX] and every number of the range having a proper-divisor
    sum that fits in [int]). *)
Theorem print_perfect_numbers_output (start end_ : Z) (header prefix suffix : string) (st : io) :
  (end_ < INT_MAX)%Z ->
  Forall (fun k => (proper_divisor_sum k <= INT_MAX)%Z)
    (zseq (Z.max start 1) (Z.to_nat (end_ - Z.max start 1 + 1))) ->
  print_perfect_numbers start end_ header prefix suffix st
  = if (end_ <? Z.max start 1)%Z
    then Some (Throw (invalid_argument "End value must be greater than or equal to start value"))
    else Some (Ok (write st (header_line header ++ number_lines prefix suffix
                               (filter perfect_b (zseq (Z.max start 1)
                                                    (Z.to_nat (end_ - Z.max start 1 + 1))))))).
Proof.
  intros _ Hall. unfold print_perfect_numbers.
  replace (if (start <? 1)%Z then 1%Z else start) with (Z.max start 1)
    by (destruct (Z.ltb_spec start 1); lia).
  destruct (Z.ltb_spec end_ (Z.max start 1)) as [Hlt|Hge]; [reflexivity|].
  rewrite perfect_numbers_loop_spec by (lia || exact Hall). rewrite header_then. reflexivity.
Qed.

Lemma print_perfect_numbers_output_witness :
  print_perfect_numbers (-3) 30 "Perfect:" "" "" (console "")
  = Some (Ok (write (console "") (header_line "Perfect:" ++ number_lines "" ""
                                    (filter perfect_b (zseq 1 30))))).
Proof.
  rewrite (print_perfect_numbers_output (-3) 30 "Perfect:" "" "" (console "")).
  - reflexivity.
  - unfold INT_MAX. lia.
  - cbn [Z.max Z.compare]. repeat constructor; vm_compute; discriminate.
Defined.
